(** * minbpe: byte pair encoding tokenizers

    A shallow embedding of [src/minbpe/base.py], [src/minbpe/basic.py] and
    [src/minbpe/regex.py], and the properties of the training loop, of
    [encode] and of [decode] that follow from it.

    Python values are modelled as follows.
    - [int] is [Z]; a token list is [list Z]; a token pair is [Z * Z].
    - [str] is the list of its code points, [bytes] the list of its byte
      values (each an 8-bit [Z]).
    - a raised exception is the [Raise] branch of [result]; a method that
      assigns to [self] returns the new object next to its result.
    - [dict] and [OrderedDict] keep insertion order: where the order is
      observed (the pair counts handed to [max], the merges replayed by
      [encode]) they are association lists with Python's assignment rule;
      the vocabulary, only ever looked up, is a [gmap]. *)

From stdpp Require Import gmap list strings.
From Stdlib Require Import ZArith Lia.

Local Open Scope Z_scope.

(** ** Exceptions *)

Inductive exn : Type :=
| Exception (msg : string)      (* [raise Exception(msg)] in encode/decode *)
| KeyError (key : Z)            (* [self._vocab[token]] on an absent key *)
| ValueError                    (* [max] of an empty dict *)
| UnicodeEncodeError (c : Z).   (* [str.encode('utf-8')] on a surrogate *)

Inductive result (A : Type) : Type :=
| Ok (a : A)
| Raise (e : exn).
Arguments Ok {A} a.
Arguments Raise {A} e.

Definition bind {A B} (r : result A) (k : A -> result B) : result B :=
  match r with
  | Ok a => k a
  | Raise e => Raise e
  end.

Notation "x <- r ;; k" := (bind r (fun x => k))
  (at level 100, r at next level, right associativity,
   format "'[v' x  <-  r  ;;  '/' k ']'").
(** The error kinds of the specification, and the exceptions of the code
    that stand for them. No exception of the code stands for
    [InvalidConfiguration]. *)
Inductive ErrorKind : Type := InvalidConfiguration | NotTrained | UnknownToken.

Definition error_kind (e : exn) : option ErrorKind :=
  match e with
  | Exception _ => Some NotTrained
  | KeyError _ => Some UnknownToken
  | ValueError => None
  | UnicodeEncodeError _ => None
  end.

(** ** Python built-ins used by the tokenizers *)

Module Py.

(** *** [str.encode('utf-8')] and [bytes.decode('utf-8', errors='replace')] *)

Abbreviation str := (list Z).
Abbreviation bytes := (list Z).

Definition REPLACEMENT : Z := 0xFFFD.

Definition is_surrogate (c : Z) : bool := (0xD800 <=? c) && (c <=? 0xDFFF).

(** A Unicode scalar value: a code point that is not a surrogate. *)
Definition scalar (c : Z) : Prop :=
  0 <= c <= 0x10FFFF /\ ~ (0xD800 <= c <= 0xDFFF).

Definition byte (b : Z) : Prop := 0 <= b < 256.

(** Code points outside [0, 0x10FFFF] do not exist in a Python [str]; the
    model refuses them together with the surrogates, so that a text whose
    encoding succeeds is a text Python can hold. *)
Definition encode_char (c : Z) : result bytes :=
  if is_surrogate c || (c <? 0) || (0x10FFFF <? c)
  then Raise (UnicodeEncodeError c)
  else if c <? 0x80 then Ok [c]
  else if c <? 0x800 then Ok [0xC0 + c / 64; 0x80 + c mod 64]
  else if c <? 0x10000 then
    Ok [0xE0 + c / 4096; 0x80 + (c / 64) mod 64; 0x80 + c mod 64]
  else
    Ok [0xF0 + c / 262144; 0x80 + (c / 4096) mod 64;
        0x80 + (c / 64) mod 64; 0x80 + c mod 64].

Fixpoint encode_utf8 (text : str) : result bytes :=
  match text with
  | [] => Ok []
  | c :: text' =>
      bs <- encode_char c ;;
      rest <- encode_utf8 text' ;;
      Ok (bs ++ rest)
  end.

Definition is_cont (b : Z) : bool := (0x80 <=? b) && (b <=? 0xBF).

(** Range of the second byte after a three-byte lead (E0 excludes overlong
    forms, ED excludes surrogates). *)
Definition second_of_3 (b0 b1 : Z) : bool :=
  if b0 =? 0xE0 then (0xA0 <=? b1) && (b1 <=? 0xBF)
  else if b0 =? 0xED then (0x80 <=? b1) && (b1 <=? 0x9F)
  else is_cont b1.

(** Range of the second byte after a four-byte lead (F0 excludes overlong
    forms, F4 stops at U+10FFFF). *)
Definition second_of_4 (b0 b1 : Z) : bool :=
  if b0 =? 0xF0 then (0x90 <=? b1) && (b1 <=? 0xBF)
  else if b0 =? 0xF4 then (0x80 <=? b1) && (b1 <=? 0x8F)
  else is_cont b1.

Inductive lead : Type := Ascii | Lead2 | Lead3 | Lead4 | Bad.

Definition classify (b0 : Z) : lead :=
  if b0 <? 0x80 then Ascii
  else if b0 <? 0xC2 then Bad
  else if b0 <? 0xE0 then Lead2
  else if b0 <? 0xF0 then Lead3
  else if b0 <? 0xF5 then Lead4
  else Bad.

(** The lenient decoder: a well-formed sequence yields its code point; an
    ill-formed one yields U+FFFD for its longest well-formed prefix (one
    byte at least) and decoding resumes after it. *)
Fixpoint decode_utf8_replace (bs : bytes) : str :=
  match bs with
  | [] => []
  | b0 :: r0 =>
      match classify b0 with
      | Ascii => b0 :: decode_utf8_replace r0
      | Bad => REPLACEMENT :: decode_utf8_replace r0
      | Lead2 =>
          match r0 with
          | b1 :: r1 =>
              if is_cont b1
              then ((b0 - 0xC0) * 64 + (b1 - 0x80)) :: decode_utf8_replace r1
              else REPLACEMENT :: decode_utf8_replace r0
          | [] => [REPLACEMENT]
          end
      | Lead3 =>
          match r0 with
          | b1 :: r1 =>
              if second_of_3 b0 b1 then
                match r1 with
                | b2 :: r2 =>
                    if is_cont b2
                    then ((b0 - 0xE0) * 4096 + (b1 - 0x80) * 64 + (b2 - 0x80))
                           :: decode_utf8_replace r2
                    else REPLACEMENT :: decode_utf8_replace r1
                | [] => [REPLACEMENT]
                end
              else REPLACEMENT :: decode_utf8_replace r0
          | [] => [REPLACEMENT]
          end
      | Lead4 =>
          match r0 with
          | b1 :: r1 =>
              if second_of_4 b0 b1 then
                match r1 with
                | b2 :: r2 =>
                    if is_cont b2 then
                      match r2 with
                      | b3 :: r3 =>
                          if is_cont b3
                          then ((b0 - 0xF0) * 262144 + (b1 - 0x80) * 4096
                                + (b2 - 0x80) * 64 + (b3 - 0x80))
                                 :: decode_utf8_replace r3
                          else REPLACEMENT :: decode_utf8_replace r2
                      | [] => [REPLACEMENT]
                      end
                    else REPLACEMENT :: decode_utf8_replace r1
                | [] => [REPLACEMENT]
                end
              else REPLACEMENT :: decode_utf8_replace r0
          | [] => [REPLACEMENT]
          end
      end
  end.

End Py.

(** *** [dict] and [collections.OrderedDict], in insertion order *)

Module Dict.
Section Dict.
Context {K V : Type} `{EqDecision K}.

(** [d.get(k)] *)
Fixpoint get (d : list (K * V)) (k : K) : option V :=
  match d with
  | [] => None
  | (k', v) :: d' => if decide (k' = k) then Some v else get d' k
  end.

(** [d.get(k, dflt)] *)
Definition get_default (d : list (K * V)) (k : K) (dflt : V) : V :=
  default dflt (get d k).

(** [d[k] = v]: an existing key keeps its place, a new key goes last. *)
Fixpoint setitem (d : list (K * V)) (k : K) (v : V) : list (K * V) :=
  match d with
  | [] => [(k, v)]
  | (k', v') :: d' =>
      if decide (k' = k) then (k, v) :: d' else (k', v') :: setitem d' k v
  end.

(** iteration over a dict yields its keys; [d.items()] is [d] itself *)
Definition keys (d : list (K * V)) : list K := d.*1.
End Dict.
End Dict.

Module PyLoops.

(** [max(iterable, key=key)]: the first item whose key is largest. *)
Fixpoint max_from {K} (key : K -> Z) (best : K) (items : list K) : K :=
  match items with
  | [] => best
  | k :: items' =>
      if key best <? key k then max_from key k items'
      else max_from key best items'
  end.

Definition max {K} (items : list K) (key : K -> Z) : result K :=
  match items with
  | [] => Raise ValueError
  | k :: items' => Ok (max_from key k items')
  end.

(** [range(n)] *)
Definition range (n : Z) : list Z := seqZ 0 n.

(** [for i in items: body], on the local variables [s]. *)
Fixpoint for_ {S} (items : list Z) (body : Z -> S -> result S) (s : S)
  : result S :=
  match items with
  | [] => Ok s
  | i :: items' => s' <- body i s ;; for_ items' body s'
  end.

(** [d[k]] on a vocabulary *)
Definition getitem (d : gmap Z Py.bytes) (k : Z) : result Py.bytes :=
  match d !! k with
  | Some v => Ok v
  | None => Raise (KeyError k)
  end.

End PyLoops.

(** ** base.py: the shared types *)

Abbreviation TokenList := (list Z).
Abbreviation TokenPair := (Z * Z)%type.
Abbreviation PairCounts := (list ((Z * Z) * Z)).
Abbreviation Merges := (list ((Z * Z) * Z)).
Abbreviation VocabDict := (gmap Z Py.bytes).

(** ** The merge kernel

    [BasicTokenizer._merge] (basic.py) and [RegexTokenizer._merge]
    (regex.py) are the same text; it is embedded once. *)

Module Kernel.

(** The variables of the [while] loop of [_merge]. *)
Record merge_vars : Type := MergeVars {
  m_tokens : TokenList;
  m_new_tokens : TokenList;
  m_i : nat
}.

Definition can_replace (pair_to_replace : TokenPair) (s : merge_vars) : bool :=
  if Z.of_nat (m_i s) <? Z.of_nat (length (m_tokens s)) - 1 then
    bool_decide (m_tokens s !! m_i s = Some pair_to_replace.1)
    && bool_decide (m_tokens s !! (m_i s + 1)%nat = Some pair_to_replace.2)
  else false.

(** The body of the loop; under the loop guard [tokens[i]] is in range. *)
Definition merge_body (pair_to_replace : TokenPair) (replacement_token : Z)
    (s : merge_vars) : merge_vars :=
  if can_replace pair_to_replace s then
    {| m_tokens := m_tokens s;
       m_new_tokens := m_new_tokens s ++ [replacement_token];
       m_i := (m_i s + 2)%nat |}
  else
    {| m_tokens := m_tokens s;
       m_new_tokens := m_new_tokens s ++ option_list (m_tokens s !! m_i s);
       m_i := (m_i s + 1)%nat |}.

(** [while i < len(tokens): ...], at most [fuel] rounds. *)
Fixpoint merge_while (fuel : nat) (pair_to_replace : TokenPair)
    (replacement_token : Z) (s : merge_vars) : merge_vars :=
  match fuel with
  | O => s
  | S fuel' =>
      if (m_i s <? length (m_tokens s))%nat
      then merge_while fuel' pair_to_replace replacement_token
             (merge_body pair_to_replace replacement_token s)
      else s
  end.

(** The loop variables when [_merge] returns; [i] grows by one at least
    each round, so [len(tokens)] rounds are enough. *)
Definition merge_run (tokens : TokenList) (pair_to_replace : TokenPair)
    (replacement_token : Z) : merge_vars :=
  merge_while (length tokens) pair_to_replace replacement_token
    {| m_tokens := tokens; m_new_tokens := []; m_i := 0%nat |}.

Definition _merge (tokens : TokenList) (pair_to_replace : TokenPair)
    (replacement_token : Z) : TokenList :=
  m_new_tokens (merge_run tokens pair_to_replace replacement_token).

(** The merge of the specification: left to right, an occurrence of the
    pair is replaced and scanning resumes after it. *)
Fixpoint merge_greedy (sequence : TokenList) (pair : TokenPair)
    (replacement : Z) : TokenList :=
  match sequence with
  | [] => []
  | x :: rest =>
      match rest with
      | y :: rest' =>
          if bool_decide (x = pair.1) && bool_decide (y = pair.2)
          then replacement :: merge_greedy rest' pair replacement
          else x :: merge_greedy rest pair replacement
      | [] => [x]
      end
  end.

(** [for pair in zip(tokens, tokens[1:]):
       pair_counts[pair] = pair_counts.get(pair, 0) + 1] *)
Definition count_into (tokens : TokenList) (pair_counts : PairCounts)
  : PairCounts :=
  fold_left
    (fun counts pair =>
       Dict.setitem counts pair (Dict.get_default counts pair 0 + 1))
    (zip tokens (drop 1 tokens)) pair_counts.

(** [{idx: bytes([idx]) for idx in range(256)}] *)
Definition base_vocab : VocabDict :=
  fold_left (fun vocab idx => <[idx := [idx]]> vocab) (PyLoops.range 256) ∅.
Arguments base_vocab : simpl never.

(** [for pair, replacement_token in merges.items():
       tokens = self._merge(tokens, pair, replacement_token)] *)
Definition replay (merges : Merges) (tokens : TokenList) : TokenList :=
  fold_left (fun toks entry => _merge toks entry.1 entry.2) merges tokens.

(** [[self._vocab[token] for token in encoded_tokens]] *)
Fixpoint lookup_all (vocab : VocabDict) (encoded_tokens : TokenList)
  : result (list Py.bytes) :=
  match encoded_tokens with
  | [] => Ok []
  | token :: rest =>
      b <- PyLoops.getitem vocab token ;;
      bs <- lookup_all vocab rest ;;
      Ok (b :: bs)
  end.

End Kernel.

(** ** basic.py: [BasicTokenizer] *)

Module BasicTokenizer.
Import Kernel PyLoops.

Record t : Type := Self {
  _vocab : option VocabDict;
  _merges : option Merges
}.

Definition __init__ : t := {| _vocab := None; _merges := None |}.

Definition _count_pairs (tokens : TokenList) : PairCounts :=
  count_into tokens [].

Definition _merge := Kernel._merge.

(** The local variables of [_byte_pair_encode]. *)
Record locals : Type := Locals {
  tokens : TokenList;
  merges : Merges;
  vocab : VocabDict
}.

(** One round of [for i in range(number_of_merges)]. *)
Definition bpe_body (original_vocab_size : Z) (i : Z) (s : locals)
  : result locals :=
  let pair_counts := _count_pairs (tokens s) in
  top_pair <- max (Dict.keys pair_counts)
                  (fun pair => Dict.get_default pair_counts pair 0) ;;
  let new_index := original_vocab_size + i in
  let tokens' := _merge (tokens s) top_pair new_index in
  let merges' := Dict.setitem (merges s) top_pair new_index in
  b0 <- getitem (vocab s) top_pair.1 ;;
  b1 <- getitem (vocab s) top_pair.2 ;;
  Ok {| tokens := tokens';
        merges := merges';
        vocab := <[new_index := b0 ++ b1]> (vocab s) |}.

Definition bpe_loop (tokens : TokenList) (original_vocab_size : Z)
    (number_of_merges : Z) : result locals :=
  for_ (range number_of_merges) (bpe_body original_vocab_size)
    {| tokens := tokens; merges := []; vocab := base_vocab |}.

Definition _byte_pair_encode (tokens : TokenList) (original_vocab_size : Z)
    (number_of_merges : Z) : result (VocabDict * Merges) :=
  s <- bpe_loop tokens original_vocab_size number_of_merges ;;
  Ok (vocab s, merges s).

(** [train] assigns the trained state last: when anything before raises,
    [self] is returned as it was. *)
Definition train (self : t) (text : Py.str) (vocab_size : Z)
  : result unit * t :=
  let r :=
    text_utf8 <- Py.encode_utf8 text ;;
    let tokens := text_utf8 in
    let number_of_merges := vocab_size - 256 in
    _byte_pair_encode tokens vocab_size number_of_merges in
  match r with
  | Ok (vocab, merges) =>
      (Ok tt, {| _vocab := Some vocab; _merges := Some merges |})
  | Raise e => (Raise e, self)
  end.

Definition encode (self : t) (text : Py.str) : result TokenList :=
  match _vocab self, _merges self with
  | Some _, Some merges =>
      text_utf8 <- Py.encode_utf8 text ;;
      let tokens := text_utf8 in
      Ok (replay merges tokens)
  | _, _ => Raise (Exception "Tokenizer has not been trained, cannot encode")
  end.

Definition decode (self : t) (encoded_tokens : TokenList) : result Py.str :=
  match _vocab self, _merges self with
  | Some vocab, Some _ =>
      encoded_token_bytes <- lookup_all vocab encoded_tokens ;;
      let tokens := concat encoded_token_bytes in
      Ok (Py.decode_utf8_replace tokens)
  | _, _ => Raise (Exception "Tokenizer has not been trained, cannot decode")
  end.

End BasicTokenizer.

(** ** regex.py: [RegexTokenizer] *)

Module RegexTokenizer.
Import Kernel PyLoops.

Section WithPattern.

(** [re.findall(self._compiled_pattern, text)] for the compiled
    [GPT4_SPLIT_PATTERN]. The pattern has no capture group, so the result is
    the list of the matched substrings. The [regex] engine and the Unicode
    tables behind [\p{L}], [\p{N}] and [\s] are not part of the repository:
    the function is a parameter. *)
Variable findall : Py.str -> list Py.str.

Record t : Type := Self {
  _vocab : option VocabDict;
  _merges : option Merges
}.

Definition __init__ : t := {| _vocab := None; _merges := None |}.

Definition _count_pairs (tokens : TokenList) (pair_counts : PairCounts)
  : PairCounts :=
  count_into tokens pair_counts.

Definition _merge := Kernel._merge.

(** The local variables of [_byte_pair_encode]. *)
Record locals : Type := Locals {
  token_chunks : list TokenList;
  merges : Merges;
  vocab : VocabDict
}.

(** One round of [for i in range(number_of_merges)]. *)
Definition bpe_body (original_vocab_size : Z) (i : Z) (s : locals)
  : result locals :=
  let pair_counts :=
    fold_left (fun pair_counts chunk => _count_pairs chunk pair_counts)
      (token_chunks s) [] in
  top_pair <- max (Dict.keys pair_counts)
                  (fun pair => Dict.get_default pair_counts pair 0) ;;
  let new_index := original_vocab_size + i in
  let token_chunks' :=
    map (fun chunk => _merge chunk top_pair new_index) (token_chunks s) in
  let merges' := Dict.setitem (merges s) top_pair new_index in
  b0 <- getitem (vocab s) top_pair.1 ;;
  b1 <- getitem (vocab s) top_pair.2 ;;
  Ok {| token_chunks := token_chunks';
        merges := merges';
        vocab := <[new_index := b0 ++ b1]> (vocab s) |}.

Definition bpe_loop (token_chunks : list TokenList) (original_vocab_size : Z)
    (number_of_merges : Z) : result locals :=
  for_ (range number_of_merges) (bpe_body original_vocab_size)
    {| token_chunks := token_chunks; merges := []; vocab := base_vocab |}.

Definition _byte_pair_encode (token_chunks : list TokenList)
    (original_vocab_size : Z) (number_of_merges : Z)
  : result (VocabDict * Merges) :=
  s <- bpe_loop token_chunks original_vocab_size number_of_merges ;;
  Ok (vocab s, merges s).

(** [[list(str(chunk).encode('utf-8')) for chunk in text_chunks]] *)
Fixpoint encode_chunks (text_chunks : list Py.str) : result (list TokenList) :=
  match text_chunks with
  | [] => Ok []
  | chunk :: rest =>
      ids <- Py.encode_utf8 chunk ;;
      ids_rest <- encode_chunks rest ;;
      Ok (ids :: ids_rest)
  end.

Definition train (self : t) (text : Py.str) (vocab_size : Z)
  : result unit * t :=
  let r :=
    let text_chunks := findall text in
    id_chunks <- encode_chunks text_chunks ;;
    let tokens := id_chunks in
    let number_of_merges := vocab_size - 256 in
    _byte_pair_encode tokens vocab_size number_of_merges in
  match r with
  | Ok (vocab, merges) =>
      (Ok tt, {| _vocab := Some vocab; _merges := Some merges |})
  | Raise e => (Raise e, self)
  end.

(** [for chunk in text_chunks: ...; tokens.extend(token_chunk)] *)
Fixpoint encode_loop (merges : Merges) (text_chunks : list Py.str)
    (tokens : TokenList) : result TokenList :=
  match text_chunks with
  | [] => Ok tokens
  | chunk :: rest =>
      chunk_bytes <- Py.encode_utf8 chunk ;;
      let token_chunk := replay merges chunk_bytes in
      encode_loop merges rest (tokens ++ token_chunk)
  end.

Definition encode (self : t) (text : Py.str) : result TokenList :=
  match _vocab self, _merges self with
  | Some _, Some merges =>
      let text_chunks := findall text in
      encode_loop merges text_chunks []
  | _, _ => Raise (Exception "Tokenizer has not been trained, cannot encode")
  end.

Definition decode (self : t) (encoded_tokens : TokenList) : result Py.str :=
  match _vocab self, _merges self with
  | Some vocab, Some _ =>
      encoded_token_bytes <- lookup_all vocab encoded_tokens ;;
      let tokens := concat encoded_token_bytes in
      Ok (Py.decode_utf8_replace tokens)
  | _, _ => Raise (Exception "Tokenizer has not been trained, cannot decode")
  end.

End WithPattern.
End RegexTokenizer.

(** ** base.py: the abstract class [Tokenizer] and its two subclasses *)

Class Tokenizer (T : Type) : Type := {
  train : T -> Py.str -> Z -> result unit * T;
  encode : T -> Py.str -> result TokenList;
  decode : T -> TokenList -> result Py.str
}.

Inductive variant : Type := Byte | Chunked.

Definition self_type (v : variant) : Type :=
  match v with
  | Byte => BasicTokenizer.t
  | Chunked => RegexTokenizer.t
  end.

Definition tokenizer (findall : Py.str -> list Py.str) (v : variant)
  : Tokenizer (self_type v) :=
  match v with
  | Byte =>
      {| train := BasicTokenizer.train;
         encode := BasicTokenizer.encode;
         decode := BasicTokenizer.decode |}
  | Chunked =>
      {| train := RegexTokenizer.train findall;
         encode := RegexTokenizer.encode findall;
         decode := RegexTokenizer.decode |}
  end.

(** A freshly constructed tokenizer. *)
Definition fresh (v : variant) : self_type v :=
  match v with
  | Byte => BasicTokenizer.__init__
  | Chunked => RegexTokenizer.__init__
  end.

(** A tokenizer holding the tables [vocab] and [merges]. *)
Definition trained (v : variant) (vocab : VocabDict) (merges : Merges)
  : self_type v :=
  match v with
  | Byte => BasicTokenizer.Self (Some vocab) (Some merges)
  | Chunked => RegexTokenizer.Self (Some vocab) (Some merges)
  end.

(** The byte-value chunks [train] and [encode] start from: the whole text
    for [BasicTokenizer], the matches of the pattern for [RegexTokenizer]. *)
Definition chunks_of (findall : Py.str -> list Py.str) (v : variant)
    (text : Py.str) : result (list TokenList) :=
  match v with
  | Byte => text_utf8 <- Py.encode_utf8 text ;; Ok [text_utf8]
  | Chunked => RegexTokenizer.encode_chunks (findall text)
  end.


(** ** Notions used by the properties *)

Section Notions.
Import Kernel.

(** Adjacent pairs of a token list: [zip(tokens, tokens[1:])]. *)
Definition pairs (tokens : TokenList) : list TokenPair :=
  zip tokens (drop 1 tokens).

(** A token the tables know after [i] rounds: a byte, or one of the [i]
    new tokens. *)
Definition known (ovs i t : Z) : Prop := 0 <= t < 256 \/ ovs <= t < ovs + i.

Record inv (ovs : Z) (cs0 : list TokenList) (i : Z)
    (s : RegexTokenizer.locals) : Prop := Inv {
  inv_tokens : forall chunk t,
    chunk ∈ RegexTokenizer.token_chunks s -> t ∈ chunk -> known ovs i t;
  inv_dom : forall k, is_Some (RegexTokenizer.vocab s !! k) <-> known ovs i k;
  inv_size : size (RegexTokenizer.vocab s) = (256 + Z.to_nat i)%nat;
  inv_ids : (RegexTokenizer.merges s).*2 = seqZ ovs i;
  inv_absent : forall p, p ∈ (RegexTokenizer.merges s).*1 ->
    p.1 < ovs + i /\ p.2 < ovs + i /\
    forall chunk, chunk ∈ RegexTokenizer.token_chunks s -> p ∉ pairs chunk;
  inv_replay :
    RegexTokenizer.token_chunks s = map (replay (RegexTokenizer.merges s)) cs0;
  inv_bytes : forall b, 0 <= b < 256 -> RegexTokenizer.vocab s !! b = Some [b];
  inv_expand : forall a b n, ((a, b), n) ∈ RegexTokenizer.merges s ->
    exists va vb, RegexTokenizer.vocab s !! a = Some va
                  /\ RegexTokenizer.vocab s !! b = Some vb
                  /\ RegexTokenizer.vocab s !! n = Some (va ++ vb);
  inv_vals : forall k bs,
    RegexTokenizer.vocab s !! k = Some bs -> Forall Py.byte bs
}.

Definition byte_chunks (cs : list TokenList) : Prop :=
  forall chunk t, chunk ∈ cs -> t ∈ chunk -> 0 <= t < 256.

(** The vocabulary agrees with the merges: a byte expands to itself, a
    merged token to the bytes of its pair. *)
Definition coherent (vocab : VocabDict) (merges : Merges) : Prop :=
  (forall b, 0 <= b < 256 -> vocab !! b = Some [b]) /\
  (forall a b n, ((a, b), n) ∈ merges ->
     exists va vb, vocab !! a = Some va /\ vocab !! b = Some vb
                   /\ vocab !! n = Some (va ++ vb)).

(** The locals of [BasicTokenizer._byte_pair_encode] seen as locals of
    [RegexTokenizer._byte_pair_encode] on a single chunk. *)
Definition lift (s : BasicTokenizer.locals) : RegexTokenizer.locals :=
  RegexTokenizer.Locals [BasicTokenizer.tokens s] (BasicTokenizer.merges s)
    (BasicTokenizer.vocab s).

Definition result_map {A B} (f : A -> B) (r : result A) : result B :=
  match r with
  | Ok a => Ok (f a)
  | Raise e => Raise e
  end.

End Notions.

(** ** Sample inputs *)

(** The text ["aaab"]. *)
Definition aaab : Py.str := [97; 97; 97; 98].

(** The text ["ab cd"]. *)
Definition ab_cd : Py.str := [97; 98; 32; 99; 100].

(** A sample pattern for the examples: a chunk is a run of characters that
    a space may lead, as [GPT4_SPLIT_PATTERN] splits lower-case words. *)
Fixpoint space_led (text : Py.str) : list Py.str :=
  match text with
  | [] => []
  | c :: text' =>
      match space_led text' with
      | [] => [[c]]
      | chunk :: chunks =>
          if bool_decide (head chunk = Some 32)
          then [c] :: chunk :: chunks
          else (c :: chunk) :: chunks
      end
  end.


(** ** minbpe/tokenizer.py: the first [BasicTokenizer]

    Its [train], [encode] and [decode] are [pass]; [_count_pairs] is the
    text of basic.py; [_merge] indexes the pair with the loop variable
    ([pair_to_replace[i]], [pair_to_replace[i+1]]), and a 2-tuple raises
    [IndexError] from index 2 on. *)

Module TokenizerPy.
Import Kernel.

Inductive outcome (A : Type) : Type :=
| Returns (a : A)
| IndexError.
Arguments Returns {A} a.
Arguments IndexError {A}.

(** [pair_to_replace[k]] *)
Definition tuple_item (pair_to_replace : TokenPair) (k : nat) : option Z :=
  match k with
  | O => Some pair_to_replace.1
  | S O => Some pair_to_replace.2
  | _ => None
  end.

Definition _count_pairs (tokens : TokenList) : PairCounts :=
  count_into tokens [].

(** [pair_to_replace[i] == tokens[i] and
     pair_to_replace[i+1] == tokens[i+1]], left to right; [and] does not
    evaluate its right operand when the left one is false. *)
Definition can_replace (pair_to_replace : TokenPair) (s : merge_vars)
  : outcome bool :=
  if Z.of_nat (m_i s) <? Z.of_nat (length (m_tokens s)) - 1 then
    match tuple_item pair_to_replace (m_i s) with
    | None => IndexError
    | Some a =>
        if bool_decide (m_tokens s !! m_i s = Some a) then
          match tuple_item pair_to_replace (m_i s + 1) with
          | None => IndexError
          | Some b =>
              Returns (bool_decide (m_tokens s !! (m_i s + 1)%nat = Some b))
          end
        else Returns false
    end
  else Returns false.

Definition merge_body (pair_to_replace : TokenPair) (replacement_token : Z)
    (s : merge_vars) : outcome merge_vars :=
  match can_replace pair_to_replace s with
  | IndexError => IndexError
  | Returns true =>
      Returns {| m_tokens := m_tokens s;
                 m_new_tokens := m_new_tokens s ++ [replacement_token];
                 m_i := (m_i s + 2)%nat |}
  | Returns false =>
      Returns {| m_tokens := m_tokens s;
                 m_new_tokens :=
                   m_new_tokens s ++ option_list (m_tokens s !! m_i s);
                 m_i := (m_i s + 1)%nat |}
  end.

Fixpoint merge_while (fuel : nat) (pair_to_replace : TokenPair)
    (replacement_token : Z) (s : merge_vars) : outcome merge_vars :=
  match fuel with
  | O => Returns s
  | S fuel' =>
      if (m_i s <? length (m_tokens s))%nat then
        match merge_body pair_to_replace replacement_token s with
        | IndexError => IndexError
        | Returns s' =>
            merge_while fuel' pair_to_replace replacement_token s'
        end
      else Returns s
  end.

Definition _merge (tokens : TokenList) (pair_to_replace : TokenPair)
    (replacement_token : Z) : outcome TokenList :=
  match merge_while (length tokens) pair_to_replace replacement_token
          {| m_tokens := tokens; m_new_tokens := []; m_i := 0%nat |} with
  | IndexError => IndexError
  | Returns s => Returns (m_new_tokens s)
  end.

End TokenizerPy.

(** ** Notions used by the further properties *)

(** One step of the counting loop:
    [counts[pair] = counts.get(pair, 0) + 1]. *)
Definition count_step (counts : PairCounts) (pair : TokenPair) : PairCounts :=
  Dict.setitem counts pair (Dict.get_default counts pair 0 + 1).

(** How often [q] occurs in a list of pairs. *)
Definition occurrences (q : TokenPair) (ps : list TokenPair) : Z :=
  Z.of_nat (length (filter (fun p => p = q) ps)).

(** The distinct pairs of [ps] in the order they are first met, after the
    pairs [seen] so far. *)
Definition first_seen (ps : list TokenPair) (seen : list TokenPair)
  : list TokenPair :=
  fold_left (fun acc p => if decide (p ∈ acc) then acc else acc ++ [p])
    ps seen.

(** The adjacent pairs of all chunks, chunk by chunk: no pair joins the
    end of a chunk to the start of the next. *)
Definition chunk_pairs (chunks : list TokenList) : list TokenPair :=
  concat (map pairs chunks).

(** [top] is a most frequent pair of [ps], and the first such pair in the
    order the pairs are first met. *)
Definition most_frequent_first (ps : list TokenPair) (top : TokenPair) : Prop :=
  top ∈ ps /\
  (forall q, occurrences q ps <= occurrences top ps) /\
  exists before after,
    first_seen ps [] = before ++ top :: after /\
    forall q, q ∈ before -> occurrences q ps < occurrences top ps.

(** The keys of the merges are distinct, and the tokens of a pair are
    bytes or ids made before the id of the pair. *)
Definition table_wf (ovs : Z) (merges : Merges) : Prop :=
  NoDup merges.*1 /\
  forall a b n, ((a, b), n) ∈ merges ->
    known ovs (n - ovs) a /\ known ovs (n - ovs) b.

(** Every vocabulary entry holds a byte at least, and an entry of an id
    from 256 on holds two. *)
Definition vocab_lengths (vocab : VocabDict) : Prop :=
  forall k bs, vocab !! k = Some bs ->
    (1 <= length bs)%nat /\ (256 <= k -> (2 <= length bs)%nat).

(** Every [replacement] written back as the two tokens of [pair]. *)
Definition unmerge (pair : TokenPair) (replacement : Z) (tokens : TokenList)
  : TokenList :=
  concat (map (fun t => if decide (t = replacement)
                        then [pair.1; pair.2] else [t]) tokens).

(** * Properties *)

(** ** The merge kernel *)

Section KernelFacts.
Import Kernel.


Lemma pairs_cons2 x y l : pairs (x :: y :: l) = (x, y) :: pairs (y :: l).
Proof. reflexivity. Qed.

Lemma pairs_short l : (length l < 2)%nat -> pairs l = [].
Proof. destruct l as [|x [|y l]]; simpl; intros; try reflexivity; lia. Qed.

Lemma list_ind_pairs (P : TokenList -> Prop) :
  P [] -> (forall x, P [x]) ->
  (forall x y l, P l -> P (y :: l) -> P (x :: y :: l)) ->
  forall l, P l.
Proof.
  intros H0 H1 H2 l.
  assert (P l /\ forall x, P (x :: l)) as [? _]; [|assumption].
  induction l as [|y l [IHl IHc]]; split; auto.
Qed.

Lemma pairs_elem c d l : (c, d) ∈ pairs l -> c ∈ l /\ d ∈ l.
Proof.
  induction l as [|x|x y l _ IH] using list_ind_pairs.
  - inversion 1.
  - inversion 1.
  - rewrite pairs_cons2, elem_of_cons. intros [Heq | Hin].
    + inversion Heq; subst. split; rewrite !elem_of_cons; auto.
    + destruct (IH Hin). split; apply elem_of_cons; auto.
Qed.

Lemma merge_while_tokens fuel p r s :
  m_tokens (merge_while fuel p r s) = m_tokens s.
Proof.
  revert s. induction fuel as [|fuel IH]; intros s; simpl; [reflexivity|].
  destruct (m_i s <? length (m_tokens s))%nat; [|reflexivity].
  rewrite IH. unfold merge_body. destruct (can_replace p s); reflexivity.
Qed.

Lemma merge_while_new_tokens fuel p r tokens acc i :
  (length tokens <= i + fuel)%nat ->
  m_new_tokens (merge_while fuel p r (MergeVars tokens acc i))
  = acc ++ merge_greedy (drop i tokens) p r.
Proof.
  revert acc i. induction fuel as [|fuel IH]; intros acc i Hlen; simpl.
  - rewrite drop_ge by lia. simpl. by rewrite app_nil_r.
  - destruct (Nat.ltb_spec i (length tokens)) as [Hi|Hi].
    2:{ rewrite drop_ge by lia. simpl. by rewrite app_nil_r. }
    destruct (lookup_lt_is_Some_2 tokens i Hi) as [x Hx].
    rewrite (drop_S _ _ _ Hx).
    unfold merge_body, can_replace; simpl.
    destruct (Z.ltb_spec (Z.of_nat i) (Z.of_nat (length tokens) - 1)) as [Hj|Hj].
    + assert (Hi' : (i + 1 < length tokens)%nat) by lia.
      destruct (lookup_lt_is_Some_2 tokens _ Hi') as [y Hy].
      replace (S i) with (i + 1)%nat by lia.
      rewrite (drop_S _ _ _ Hy), Hx, Hy. simpl.
      replace (S (i + 1)) with (i + 2)%nat by lia.
      destruct (bool_decide_reflect (Some x = Some p.1)) as [E1|E1];
        destruct (bool_decide_reflect (Some y = Some p.2)) as [E2|E2];
        simpl.
      * inversion E1; inversion E2; subst.
        rewrite !bool_decide_eq_true_2 by reflexivity. simpl.
        rewrite IH by lia. by rewrite <- app_assoc.
      * rewrite (bool_decide_eq_false_2 (y = p.2)) by congruence.
        rewrite andb_false_r, IH by lia.
        rewrite (drop_S _ _ _ Hy), <- app_assoc.
        replace (S (i + 1)) with (i + 2)%nat by lia. reflexivity.
      * rewrite (bool_decide_eq_false_2 (x = p.1)) by congruence. simpl.
        rewrite IH by lia.
        rewrite (drop_S _ _ _ Hy), <- app_assoc.
        replace (S (i + 1)) with (i + 2)%nat by lia. reflexivity.
      * rewrite (bool_decide_eq_false_2 (x = p.1)) by congruence. simpl.
        rewrite IH by lia.
        rewrite (drop_S _ _ _ Hy), <- app_assoc.
        replace (S (i + 1)) with (i + 2)%nat by lia. reflexivity.
    + rewrite Hx. simpl. rewrite IH by lia.
      rewrite (drop_ge tokens (S i)) by lia.
      rewrite (drop_ge tokens (i + 1)) by lia.
      simpl. by rewrite app_nil_r.
Qed.

(** With [len(tokens)] rounds of fuel the loop has left its guard. *)
Lemma merge_while_exit fuel p r tokens : forall acc i,
  (length tokens <= i + fuel)%nat ->
  (length tokens <= m_i (merge_while fuel p r (MergeVars tokens acc i)))%nat.
Proof.
  induction fuel as [|fuel IH]; intros acc i Hlen; simpl; [lia|].
  destruct (Nat.ltb_spec i (length tokens)) as [Hi|Hi]; simpl; [|lia].
  unfold merge_body. destruct (can_replace p _); simpl; apply IH; lia.
Qed.

(** More fuel does not change what the loop returns. *)
Lemma merge_while_fuel fuel p r tokens :
  (length tokens <= fuel)%nat ->
  m_new_tokens (merge_while fuel p r (MergeVars tokens [] 0))
  = _merge tokens p r.
Proof.
  intros Hf. unfold _merge, merge_run.
  rewrite !merge_while_new_tokens by lia. reflexivity.
Qed.

(** The [while] loop of [_merge] computes the greedy merge. *)
Lemma _merge_greedy tokens p r : _merge tokens p r = merge_greedy tokens p r.
Proof.
  unfold _merge, merge_run.
  rewrite merge_while_new_tokens by lia. reflexivity.
Qed.

Lemma pairs_cons_incl q y l : q ∈ pairs l -> q ∈ pairs (y :: l).
Proof.
  destruct l as [|z l]; [inversion 1|].
  rewrite pairs_cons2. apply list_elem_of_further.
Qed.

Lemma merge_greedy_cons2 x y l p n :
  merge_greedy (x :: y :: l) p n
  = if bool_decide (x = p.1) && bool_decide (y = p.2)
    then n :: merge_greedy l p n
    else x :: merge_greedy (y :: l) p n.
Proof. reflexivity. Qed.

Lemma merge_greedy_nonnil y l p n : merge_greedy (y :: l) p n <> [].
Proof. destruct l; simpl; [|destruct (_ && _)]; discriminate. Qed.

Lemma merge_greedy_head y l p n h t :
  merge_greedy (y :: l) p n = h :: t -> h = n \/ h = y.
Proof.
  destruct l as [|z l]; simpl.
  - inversion 1; auto.
  - destruct (_ && _); inversion 1; auto.
Qed.

Lemma merge_greedy_elem l p n x :
  x ∈ merge_greedy l p n -> x = n \/ x ∈ l.
Proof.
  induction l as [|y|y z l IHl IHzl] using list_ind_pairs; simpl.
  - inversion 1.
  - auto.
  - destruct (_ && _); rewrite !elem_of_cons.
    + intros [->|Hin]; auto. destruct (IHl Hin); auto.
    + intros [->|Hin]; auto. destruct (IHzl Hin) as [?|Hzl]; auto.
      apply elem_of_cons in Hzl. auto.
Qed.

(** After a merge, two adjacent tokens that are not the new token were
    adjacent before, and they are not the merged pair. *)
Lemma merge_greedy_pairs l p n c d :
  (c, d) ∈ pairs (merge_greedy l p n) ->
  c = n \/ d = n \/ ((c, d) ∈ pairs l /\ (c, d) <> p).
Proof.
  induction l as [|x|x y l IHl IHyl] using list_ind_pairs.
  - inversion 1.
  - inversion 1.
  - rewrite merge_greedy_cons2.
    destruct (bool_decide (x = p.1) && bool_decide (y = p.2)) eqn:Hc.
    + destruct (merge_greedy l p n) as [|h t] eqn:Hm; [inversion 1|].
      rewrite pairs_cons2, elem_of_cons. intros [Heq|Hin].
      * inversion Heq; auto.
      * destruct (IHl Hin) as [?|[?|[Hp Hne]]]; auto.
        right; right; split; [|assumption].
        by apply pairs_cons_incl, pairs_cons_incl.
    + destruct (merge_greedy (y :: l) p n) as [|h t] eqn:Hm.
      { destruct (merge_greedy_nonnil _ _ _ _ Hm). }
      rewrite pairs_cons2, elem_of_cons. intros [Heq|Hin].
      * inversion Heq; subst.
        destruct (merge_greedy_head _ _ _ _ _ _ Hm) as [->| ->]; auto.
        right; right; split; [rewrite pairs_cons2; apply list_elem_of_here|].
        intros E. rewrite <- E in Hc. simpl in Hc.
        rewrite !bool_decide_eq_true_2 in Hc by reflexivity. discriminate.
      * destruct (IHyl Hin) as [?|[?|[Hp Hne]]]; auto.
        right; right; split; [|assumption]. by apply pairs_cons_incl.
Qed.

Lemma lookup_all_cons vocab x l bss :
  lookup_all vocab (x :: l) = Ok bss <->
  exists v bs, vocab !! x = Some v /\ lookup_all vocab l = Ok bs
               /\ bss = v :: bs.
Proof.
  simpl. unfold PyLoops.getitem.
  destruct (vocab !! x) as [v|]; simpl.
  - destruct (lookup_all vocab l) as [bs|e]; simpl; split.
    + inversion 1; eauto.
    + intros (? & ? & [= <-] & [= <-] & ->). reflexivity.
    + inversion 1.
    + intros (? & ? & _ & ? & _). discriminate.
  - split; [inversion 1|]. intros (? & ? & ? & _). discriminate.
Qed.

(** A merge whose new token expands to the bytes of the pair it replaces
    keeps the bytes of the sequence. *)
Lemma lookup_all_merge (vocab : VocabDict) a b n va vb l :
  vocab !! a = Some va -> vocab !! b = Some vb ->
  vocab !! n = Some (va ++ vb) ->
  forall bss, lookup_all vocab l = Ok bss ->
  exists bss', lookup_all vocab (merge_greedy l (a, b) n) = Ok bss'
               /\ concat bss' = concat bss.
Proof.
  intros Ha Hb Hn.
  induction l as [|x|x y l IHl IHyl] using list_ind_pairs; intros bss Hl.
  - eauto.
  - eauto.
  - rewrite merge_greedy_cons2. cbn [fst snd].
    destruct (bool_decide_reflect (x = a)) as [->|Hx];
      [destruct (bool_decide_reflect (y = b)) as [->|Hy]|]; cbn [andb].
    + apply lookup_all_cons in Hl as (v & bs & Hv & Hl & ->).
      apply lookup_all_cons in Hl as (w & bs' & Hw & Hl & ->).
      destruct (IHl _ Hl) as (bss' & Hm & Hcat).
      exists ((va ++ vb) :: bss'). split.
      * apply lookup_all_cons. eauto.
      * simpl. rewrite Hcat, <- app_assoc. congruence.
    + apply lookup_all_cons in Hl as (v & bs & Hv & Hl & ->).
      destruct (IHyl _ Hl) as (bss' & Hm & Hcat).
      exists (v :: bss'). split.
      * apply lookup_all_cons. eauto.
      * simpl. by rewrite Hcat.
    + apply lookup_all_cons in Hl as (v & bs & Hv & Hl & ->).
      destruct (IHyl _ Hl) as (bss' & Hm & Hcat).
      exists (v :: bss'). split.
      * apply lookup_all_cons. eauto.
      * simpl. by rewrite Hcat.
Qed.

End KernelFacts.

(** ** Dictionaries, [max] and the base vocabulary *)

Section DictFacts.
Context {K V : Type} `{EqDecision K}.
Implicit Types (d : list (K * V)) (k : K) (v : V).

Lemma keys_setitem d k v q :
  q ∈ Dict.keys (Dict.setitem d k v) <-> q = k \/ q ∈ Dict.keys d.
Proof.
  unfold Dict.keys. induction d as [|[k' v'] d IH]; simpl.
  - rewrite list_elem_of_singleton, elem_of_nil. tauto.
  - destruct (decide (k' = k)) as [->|Hne]; simpl;
      rewrite !elem_of_cons; [tauto|]. rewrite IH. tauto.
Qed.

Lemma setitem_fresh d k v :
  k ∉ Dict.keys d -> Dict.setitem d k v = d ++ [(k, v)].
Proof.
  unfold Dict.keys. induction d as [|[k' v'] d IH]; simpl; [reflexivity|].
  rewrite not_elem_of_cons. intros [Hne Hd].
  destruct (decide (k' = k)); [congruence|]. by rewrite IH.
Qed.

Lemma max_elem (items : list K) key k :
  PyLoops.max items key = Ok k -> k ∈ items.
Proof.
  destruct items as [|k0 items]; simpl; [inversion 1|]. intros [= <-].
  assert (forall best, PyLoops.max_from key best items = best
                       \/ PyLoops.max_from key best items ∈ items) as Hm.
  { induction items as [|x items IH]; intros best; simpl; [auto|].
    destruct (key best <? key x).
    - destruct (IH x) as [->|?]; right;
        [apply list_elem_of_here | by apply list_elem_of_further].
    - destruct (IH best) as [->|?]; [auto|].
      right. by apply list_elem_of_further. }
  destruct (Hm k0) as [->|?];
    [apply list_elem_of_here | by apply list_elem_of_further].
Qed.
End DictFacts.

Lemma keys_count_into tokens (pc : PairCounts) q :
  q ∈ Dict.keys (Kernel.count_into tokens pc)
  <-> q ∈ Dict.keys pc \/ q ∈ pairs tokens.
Proof.
  unfold Kernel.count_into. fold (pairs tokens).
  generalize (pairs tokens) as ps. intros ps. revert pc.
  induction ps as [|a ps IH]; intros pc; simpl.
  - rewrite elem_of_nil. tauto.
  - rewrite IH, keys_setitem, elem_of_cons. tauto.
Qed.

Lemma fold_insert_lookup (l : list Z) (m0 : VocabDict) k :
  fold_left (fun vocab idx => <[idx := [idx]]> vocab) l m0 !! k
  = if decide (k ∈ l) then Some [k] else m0 !! k.
Proof.
  revert m0. induction l as [|a l IH]; intros m0; simpl.
  - destruct (decide (k ∈ [])) as [Hin|]; [inversion Hin|reflexivity].
  - rewrite IH.
    destruct (decide (k ∈ l)) as [Hin|Hnin].
    + rewrite decide_True; [reflexivity|by apply list_elem_of_further].
    + destruct (decide (a = k)) as [->|Hne].
      * rewrite lookup_insert_eq.
        rewrite decide_True; [reflexivity|apply list_elem_of_here].
      * rewrite lookup_insert_ne by assumption.
        rewrite decide_False; [reflexivity|].
        rewrite elem_of_cons. intros [?|?]; congruence.
Qed.

Lemma base_vocab_lookup k :
  Kernel.base_vocab !! k = if decide (0 <= k < 256) then Some [k] else None.
Proof.
  unfold Kernel.base_vocab, PyLoops.range. rewrite fold_insert_lookup.
  destruct (decide (k ∈ seqZ 0 256)) as [Hin|Hnin];
    rewrite elem_of_seqZ in *.
  - rewrite decide_True by lia. reflexivity.
  - rewrite decide_False by lia. apply lookup_empty.
Qed.

Lemma base_vocab_size : size Kernel.base_vocab = 256%nat.
Proof. vm_compute. reflexivity. Qed.

(** ** The training loop

    The invariant is stated on the loop of [RegexTokenizer]; the loop of
    [BasicTokenizer] is the same loop on a single chunk. *)

Section Training.
Import Kernel PyLoops.

Lemma keys_count_chunks (chunks : list TokenList) (pc : PairCounts) q :
  q ∈ Dict.keys
        (fold_left (fun pair_counts chunk =>
                      RegexTokenizer._count_pairs chunk pair_counts) chunks pc)
  <-> q ∈ Dict.keys pc \/ exists chunk, chunk ∈ chunks /\ q ∈ pairs chunk.
Proof.
  revert pc. induction chunks as [|c chunks IH]; intros pc; simpl.
  - split; [auto|]. intros [?|(? & Hin & _)]; [assumption|inversion Hin].
  - rewrite IH. unfold RegexTokenizer._count_pairs.
    rewrite keys_count_into. split.
    + intros [[?|?]|(ch & ? & ?)]; [auto| |].
      * right. exists c. split; [apply list_elem_of_here|assumption].
      * right. exists ch. split; [by apply list_elem_of_further|assumption].
    + intros [?|(ch & Hin & ?)]; [auto|].
      apply elem_of_cons in Hin as [->|?]; [auto|]. right. eauto.
Qed.

Lemma replay_snoc merges pair n tokens :
  replay (merges ++ [(pair, n)]) tokens = _merge (replay merges tokens) pair n.
Proof. unfold replay. rewrite fold_left_app. reflexivity. Qed.


Lemma inv_init_gen ovs cs0 (v : VocabDict) :
  byte_chunks cs0 ->
  (forall k, v !! k = if decide (0 <= k < 256) then Some [k] else None) ->
  size v = 256%nat ->
  inv ovs cs0 0 (RegexTokenizer.Locals cs0 [] v).
Proof.
  intros Hb Hv Hs. constructor; simpl.
  - intros chunk t Hc Ht. left. eauto.
  - intros k. rewrite Hv. unfold known.
    destruct (decide (0 <= k < 256)); split; intros H;
      try (by eexists); try lia.
    destruct H as [? [=]].
  - apply Hs.
  - reflexivity.
  - intros p Hp. inversion Hp.
  - unfold replay. simpl. by rewrite map_id.
  - intros b Hb'. rewrite Hv. by rewrite decide_True.
  - intros a b n Hin. inversion Hin.
  - intros k bs. rewrite Hv. destruct (decide (0 <= k < 256)); [|discriminate].
    intros [= <-]. constructor; [assumption|constructor].
Qed.

Lemma inv_init ovs cs0 :
  byte_chunks cs0 ->
  inv ovs cs0 0 (RegexTokenizer.Locals cs0 [] base_vocab).
Proof.
  intros Hb.
  apply (inv_init_gen ovs cs0 base_vocab Hb base_vocab_lookup base_vocab_size).
Qed.

(** What one round does when it does not raise. *)
Lemma bpe_body_Ok ovs cs0 i s s' :
  0 <= i -> inv ovs cs0 i s ->
  RegexTokenizer.bpe_body ovs i s = Ok s' ->
  exists top va vb chunk,
    chunk ∈ RegexTokenizer.token_chunks s /\ top ∈ pairs chunk /\
    (top ∉ (RegexTokenizer.merges s).*1) /\
    RegexTokenizer.vocab s !! top.1 = Some va /\
    RegexTokenizer.vocab s !! top.2 = Some vb /\
    s' = RegexTokenizer.Locals
           (map (fun chunk => _merge chunk top (ovs + i))
                (RegexTokenizer.token_chunks s))
           (RegexTokenizer.merges s ++ [(top, ovs + i)])
           (<[ovs + i := va ++ vb]> (RegexTokenizer.vocab s)).
Proof.
  intros Hi Hinv. unfold RegexTokenizer.bpe_body.
  destruct (max _ _) as [top|e] eqn:Hmax; simpl; [|discriminate].
  apply max_elem, keys_count_chunks in Hmax as [Hnil|(chunk & Hc & Hp)];
    [inversion Hnil|].
  unfold getitem.
  destruct (RegexTokenizer.vocab s !! top.1) as [va|] eqn:Ha; simpl;
    [|discriminate].
  destruct (RegexTokenizer.vocab s !! top.2) as [vb|] eqn:Hb; simpl;
    [|discriminate].
  intros [= <-]. exists top, va, vb, chunk.
  assert (Hfresh : top ∉ (RegexTokenizer.merges s).*1).
  { intros Hin. destruct (inv_absent _ _ _ _ Hinv _ Hin) as (_ & _ & Habs).
    exact (Habs _ Hc Hp). }
  repeat split; try assumption.
  unfold RegexTokenizer._merge. f_equal.
  by apply setitem_fresh.
Qed.

Lemma known_lt ovs i t : 256 <= ovs -> 0 <= i -> known ovs i t -> t < ovs + i.
Proof. unfold known. lia. Qed.

Lemma inv_step ovs cs0 i s s' :
  256 <= ovs -> 0 <= i -> inv ovs cs0 i s ->
  RegexTokenizer.bpe_body ovs i s = Ok s' ->
  inv ovs cs0 (i + 1) s'.
Proof.
  intros Hovs Hi Hinv Hbody.
  destruct (bpe_body_Ok _ _ _ _ _ Hi Hinv Hbody)
    as ([a b] & va & vb & chunk & Hc & Hp & Hfresh & Ha & Hb & ->).
  simpl in Ha, Hb.
  destruct (pairs_elem _ _ _ Hp) as [Hina Hinb].
  pose proof (inv_tokens _ _ _ _ Hinv _ _ Hc Hina) as Hka.
  pose proof (inv_tokens _ _ _ _ Hinv _ _ Hc Hinb) as Hkb.
  assert (Hn : RegexTokenizer.vocab s !! (ovs + i) = None).
  { apply eq_None_not_Some. rewrite (inv_dom _ _ _ _ Hinv).
    unfold known. lia. }
  constructor; simpl.
  - intros chunk' t Hin Ht.
    apply list_elem_of_fmap in Hin as (c0 & -> & Hc0).
    rewrite _merge_greedy in Ht.
    apply merge_greedy_elem in Ht as [->|Ht].
    + right. lia.
    + destruct (inv_tokens _ _ _ _ Hinv _ _ Hc0 Ht) as [?|?];
        [left|right]; lia.
  - intros k. destruct (decide (k = ovs + i)) as [->|Hne].
    + rewrite lookup_insert_eq. split; [|by eexists].
      intros _. right. lia.
    + rewrite lookup_insert_ne by congruence.
      rewrite (inv_dom _ _ _ _ Hinv). unfold known. lia.
  - rewrite map_size_insert_None by assumption.
    rewrite (inv_size _ _ _ _ Hinv). lia.
  - rewrite fmap_app, (inv_ids _ _ _ _ Hinv). simpl.
    rewrite seqZ_app by lia. f_equal.
  - intros p Hin. rewrite fmap_app, elem_of_app in Hin. simpl in Hin.
    assert (Hlt : p.1 < ovs + i /\ p.2 < ovs + i).
    { destruct Hin as [Hin|Hin].
      - destruct (inv_absent _ _ _ _ Hinv _ Hin) as (? & ? & _). lia.
      - apply list_elem_of_singleton in Hin as ->. simpl.
        split; by apply known_lt. }
    split; [lia|]. split; [lia|].
    intros chunk' Hin' Hp'.
    apply list_elem_of_fmap in Hin' as (c0 & -> & Hc0).
    rewrite _merge_greedy in Hp'. destruct p as [c d]. simpl in Hlt.
    apply merge_greedy_pairs in Hp' as [->|[->|[Hold Hne]]]; [lia|lia|].
    destruct Hin as [Hin|Hin].
    + destruct (inv_absent _ _ _ _ Hinv _ Hin) as (_ & _ & Habs).
      exact (Habs _ Hc0 Hold).
    + apply list_elem_of_singleton in Hin. congruence.
  - rewrite (inv_replay _ _ _ _ Hinv), map_map.
    apply map_ext. intros c0. by rewrite replay_snoc.
  - intros b' Hb'. rewrite lookup_insert_ne by lia.
    by apply (inv_bytes _ _ _ _ Hinv).
  - intros a' b' n Hin. apply elem_of_app in Hin as [Hin|Hin].
    + destruct (inv_expand _ _ _ _ Hinv _ _ _ Hin) as (wa & wb & ? & ? & ?).
      exists wa, wb.
      rewrite !lookup_insert_ne by (intros <-; congruence). auto.
    + apply list_elem_of_singleton in Hin. inversion Hin; subst.
      exists va, vb.
      rewrite !lookup_insert_ne by (intros E; rewrite <- E in *; congruence).
      rewrite lookup_insert_eq. auto.
  - intros k bs. destruct (decide (k = ovs + i)) as [->|Hne].
    + rewrite lookup_insert_eq. intros [= <-]. apply Forall_app.
      split; eapply (inv_vals _ _ _ _ Hinv); eassumption.
    + rewrite lookup_insert_ne by congruence.
      apply (inv_vals _ _ _ _ Hinv).
Qed.

Lemma inv_for ovs cs0 (k : nat) : forall i s s',
  256 <= ovs -> 0 <= i -> inv ovs cs0 i s ->
  for_ (seqZ i (Z.of_nat k)) (RegexTokenizer.bpe_body ovs) s = Ok s' ->
  inv ovs cs0 (i + Z.of_nat k) s'.
Proof.
  induction k as [|k IH]; intros i s s' Hovs Hi Hinv.
  - simpl. intros [= <-]. by rewrite Z.add_0_r.
  - rewrite seqZ_cons by lia. simpl.
    destruct (RegexTokenizer.bpe_body ovs i s) as [s1|e] eqn:Hb; simpl;
      [|discriminate].
    replace (Z.pred (Z.of_nat (S k))) with (Z.of_nat k) by lia.
    intros Hfor.
    replace (i + Z.of_nat (S k)) with (Z.succ i + Z.of_nat k) by lia.
    apply (IH _ s1); [assumption|lia| |assumption].
    replace (Z.succ i) with (i + 1) by lia.
    by apply (inv_step _ _ _ s).
Qed.

(** The tables when the loop of [RegexTokenizer._byte_pair_encode] ends:
    the invariant after [max 0 number_of_merges] rounds. *)
Lemma bpe_loop_inv cs0 ovs n s :
  byte_chunks cs0 -> (n <= 0 \/ 256 <= ovs) ->
  RegexTokenizer.bpe_loop cs0 ovs n = Ok s ->
  inv ovs cs0 (Z.max 0 n) s.
Proof.
  intros Hb Hn. unfold RegexTokenizer.bpe_loop, range.
  destruct (decide (n <= 0)) as [Hle|Hgt].
  - rewrite Z.max_l by lia.
    replace (seqZ 0 n) with (@nil Z)
      by (unfold seqZ; by rewrite Z2Nat.nonpos).
    simpl. intros [= <-]. by apply inv_init.
  - rewrite Z.max_r by lia. rewrite <- (Z2Nat.id n) at 1 by lia.
    intros Hfor. rewrite <- (Z2Nat.id n) by lia.
    apply (inv_for ovs cs0 _ 0 _ s) in Hfor;
      [assumption|lia|lia|by apply inv_init].
Qed.

End Training.

(** ** UTF-8 *)

Section Utf8.
Import Py.

Ltac zcases :=
  repeat match goal with
  | |- context [?a <? ?b] => destruct (Z.ltb_spec a b)
  | |- context [?a <=? ?b] => destruct (Z.leb_spec a b)
  | |- context [?a =? ?b] => destruct (Z.eqb_spec a b)
  | H : context [?a <? ?b] |- _ => destruct (Z.ltb_spec a b)
  | H : context [?a <=? ?b] |- _ => destruct (Z.leb_spec a b)
  end; simpl in *.

Ltac zdiv := Z.to_euclidean_division_equations; lia.

Lemma classify_lead2 b : 0xC2 <= b < 0xE0 -> classify b = Lead2.
Proof. unfold classify. intros. zcases; try reflexivity; lia. Qed.

Lemma classify_lead3 b : 0xE0 <= b < 0xF0 -> classify b = Lead3.
Proof. unfold classify. intros. zcases; try reflexivity; lia. Qed.

Lemma classify_lead4 b : 0xF0 <= b < 0xF5 -> classify b = Lead4.
Proof. unfold classify. intros. zcases; try reflexivity; lia. Qed.

Lemma classify_ascii b : b < 0x80 -> classify b = Ascii.
Proof. unfold classify. intros. zcases; try reflexivity; lia. Qed.

Lemma is_cont_true b : 0x80 <= b <= 0xBF -> is_cont b = true.
Proof. unfold is_cont. intros. zcases; try reflexivity; lia. Qed.

Lemma encode_char_Ok c bs :
  encode_char c = Ok bs ->
  0 <= c <= 0x10FFFF /\ ~ (0xD800 <= c <= 0xDFFF) /\
  bs = if c <? 0x80 then [c]
       else if c <? 0x800 then [0xC0 + c / 64; 0x80 + c mod 64]
       else if c <? 0x10000 then
         [0xE0 + c / 4096; 0x80 + (c / 64) mod 64; 0x80 + c mod 64]
       else
         [0xF0 + c / 262144; 0x80 + (c / 4096) mod 64;
          0x80 + (c / 64) mod 64; 0x80 + c mod 64].
Proof.
  unfold encode_char, is_surrogate.
  destruct (Z.leb_spec 0xD800 c), (Z.leb_spec c 0xDFFF),
    (Z.ltb_spec c 0), (Z.ltb_spec 0x10FFFF c); simpl;
    try discriminate;
    (intros Henc; split; [lia|]; split; [lia|]; revert Henc;
     repeat match goal with
            | |- context [if ?b then _ else _] => destruct b
            end; congruence).
Qed.

Lemma encode_char_bytes c bs :
  encode_char c = Ok bs -> Forall Py.byte bs.
Proof.
  intros H. apply encode_char_Ok in H as (Hr & Hs & ->).
  zcases; repeat constructor; zdiv.
Qed.

Lemma decode_encode_char c bs rest :
  encode_char c = Ok bs ->
  decode_utf8_replace (bs ++ rest) = c :: decode_utf8_replace rest.
Proof.
  intros H. apply encode_char_Ok in H as (Hr & Hs & ->).
  destruct (Z.ltb_spec c 0x80); [|destruct (Z.ltb_spec c 0x800);
    [|destruct (Z.ltb_spec c 0x10000)]];
    cbn [app decode_utf8_replace].
  - rewrite classify_ascii by lia. reflexivity.
  - rewrite classify_lead2 by zdiv. rewrite is_cont_true by zdiv.
    f_equal. zdiv.
  - rewrite classify_lead3 by zdiv.
    assert (second_of_3 (0xE0 + c / 4096) (0x80 + (c / 64) mod 64) = true)
      as ->.
    { unfold second_of_3, is_cont. zcases; try reflexivity; zdiv. }
    rewrite is_cont_true by zdiv. f_equal. zdiv.
  - rewrite classify_lead4 by zdiv.
    assert (second_of_4 (0xF0 + c / 262144) (0x80 + (c / 4096) mod 64) = true)
      as ->.
    { unfold second_of_4, is_cont. zcases; try reflexivity; zdiv. }
    rewrite !is_cont_true by zdiv. f_equal. zdiv.
Qed.

Lemma encode_utf8_cons c text bs :
  encode_utf8 (c :: text) = Ok bs <->
  exists b r, encode_char c = Ok b /\ encode_utf8 text = Ok r /\ bs = b ++ r.
Proof.
  simpl. destruct (encode_char c) as [b|e]; simpl.
  - destruct (encode_utf8 text) as [r|e]; simpl; split.
    + intros [= <-]. eauto.
    + intros (? & ? & [= <-] & [= <-] & ->). reflexivity.
    + discriminate.
    + intros (? & ? & _ & ? & _). discriminate.
  - split; [discriminate|]. intros (? & ? & ? & _). discriminate.
Qed.

(** Decoding inverts encoding. *)
Lemma decode_encode_utf8 text : forall bs,
  encode_utf8 text = Ok bs -> decode_utf8_replace bs = text.
Proof.
  induction text as [|c text IH]; intros bs.
  - intros [= <-]. reflexivity.
  - intros (b & r & Hc & Hr & ->)%encode_utf8_cons.
    rewrite (decode_encode_char _ _ _ Hc). f_equal. by apply IH.
Qed.

Lemma encode_utf8_bytes text : forall bs,
  encode_utf8 text = Ok bs -> Forall Py.byte bs.
Proof.
  induction text as [|c text IH]; intros bs.
  - intros [= <-]. constructor.
  - intros (b & r & Hc & Hr & ->)%encode_utf8_cons.
    apply Forall_app. split; [by apply (encode_char_bytes c)|by apply IH].
Qed.

Lemma encode_utf8_app t1 t2 b1 b2 :
  encode_utf8 t1 = Ok b1 -> encode_utf8 t2 = Ok b2 ->
  encode_utf8 (t1 ++ t2) = Ok (b1 ++ b2).
Proof.
  revert b1. induction t1 as [|c t1 IH]; intros b1.
  - intros [= <-]. auto.
  - intros (b & r & Hc & Hr & ->)%encode_utf8_cons H2.
    simpl. rewrite Hc. simpl. rewrite (IH _ Hr H2). simpl.
    by rewrite app_assoc.
Qed.

Lemma classify_spec b :
  match classify b with
  | Ascii => b < 0x80
  | Lead2 => 0xC2 <= b < 0xE0
  | Lead3 => 0xE0 <= b < 0xF0
  | Lead4 => 0xF0 <= b < 0xF5
  | Bad => True
  end.
Proof. unfold classify. zcases; try exact I; lia. Qed.

Lemma is_cont_spec b : is_cont b = true -> 0x80 <= b <= 0xBF.
Proof. unfold is_cont. zcases; intros; try discriminate; lia. Qed.

Lemma second_of_3_spec b0 b1 :
  second_of_3 b0 b1 = true ->
  0x80 <= b1 <= 0xBF /\ (b0 = 0xE0 -> 0xA0 <= b1) /\ (b0 = 0xED -> b1 <= 0x9F).
Proof.
  unfold second_of_3, is_cont. zcases; intros; try discriminate; lia.
Qed.

Lemma second_of_4_spec b0 b1 :
  second_of_4 b0 b1 = true ->
  0x80 <= b1 <= 0xBF /\ (b0 = 0xF0 -> 0x90 <= b1) /\ (b0 = 0xF4 -> b1 <= 0x8F).
Proof.
  unfold second_of_4, is_cont. zcases; intros; try discriminate; lia.
Qed.

Lemma scalar_REPLACEMENT : scalar REPLACEMENT.
Proof. unfold scalar, REPLACEMENT. lia. Qed.

(** An ill-formed lead byte becomes U+FFFD and decoding goes on. *)
Lemma decode_bad b rest :
  classify b = Bad ->
  decode_utf8_replace (b :: rest) = REPLACEMENT :: decode_utf8_replace rest.
Proof. intros H. cbn [decode_utf8_replace]. by rewrite H. Qed.

(** The lenient decoder always yields a string of scalar values. *)
Lemma decode_scalar_upto (n : nat) : forall bs,
  (length bs <= n)%nat -> Forall byte bs ->
  Forall scalar (decode_utf8_replace bs).
Proof.
  induction n as [|n IH]; intros bs Hlen Hbs.
  { destruct bs; [constructor|simpl in Hlen; lia]. }
  destruct bs as [|b0 r0]; [constructor|].
  cbn [decode_utf8_replace].
  pose proof (classify_spec b0) as Hc.
  apply Forall_cons in Hbs as [Hb0 Hr0]. simpl in Hlen.
  assert (Hrec0 : Forall scalar (decode_utf8_replace r0))
    by (apply IH; [lia|assumption]).
  pose proof scalar_REPLACEMENT as HR.
  destruct (classify b0).
  - constructor; [|assumption]. unfold scalar, byte in *. lia.
  - destruct r0 as [|b1 r1]; [constructor; [exact HR|constructor]|].
    apply Forall_cons in Hr0 as [Hb1 Hr1]. simpl in Hlen.
    destruct (is_cont b1) eqn:H1; [|by constructor].
    apply is_cont_spec in H1.
    constructor; [unfold scalar; lia|apply IH; [lia|assumption]].
  - destruct r0 as [|b1 r1]; [constructor; [exact HR|constructor]|].
    apply Forall_cons in Hr0 as [Hb1 Hr1]. simpl in Hlen.
    destruct (second_of_3 b0 b1) eqn:H1; [|by constructor].
    apply second_of_3_spec in H1.
    assert (Hrec1 : Forall scalar (decode_utf8_replace r1))
      by (apply IH; [lia|assumption]).
    destruct r1 as [|b2 r2]; [constructor; [exact HR|constructor]|].
    apply Forall_cons in Hr1 as [Hb2 Hr2]. simpl in Hlen.
    destruct (is_cont b2) eqn:H2; [|by constructor].
    apply is_cont_spec in H2.
    constructor; [unfold scalar; lia|apply IH; [lia|assumption]].
  - destruct r0 as [|b1 r1]; [constructor; [exact HR|constructor]|].
    apply Forall_cons in Hr0 as [Hb1 Hr1]. simpl in Hlen.
    destruct (second_of_4 b0 b1) eqn:H1; [|by constructor].
    apply second_of_4_spec in H1.
    assert (Hrec1 : Forall scalar (decode_utf8_replace r1))
      by (apply IH; [lia|assumption]).
    destruct r1 as [|b2 r2]; [constructor; [exact HR|constructor]|].
    apply Forall_cons in Hr1 as [Hb2 Hr2]. simpl in Hlen.
    destruct (is_cont b2) eqn:H2; [|by constructor].
    apply is_cont_spec in H2.
    assert (Hrec2 : Forall scalar (decode_utf8_replace r2))
      by (apply IH; [lia|assumption]).
    destruct r2 as [|b3 r3]; [constructor; [exact HR|constructor]|].
    apply Forall_cons in Hr2 as [Hb3 Hr3]. simpl in Hlen.
    destruct (is_cont b3) eqn:H3; [|by constructor].
    apply is_cont_spec in H3.
    constructor; [unfold scalar; lia|apply IH; [lia|assumption]].
  - by constructor.
Qed.

Lemma decode_scalar bs :
  Forall byte bs -> Forall scalar (decode_utf8_replace bs).
Proof. apply (decode_scalar_upto (length bs)). lia. Qed.

End Utf8.


Section Variants.
Import Kernel PyLoops.

Lemma bpe_body_lift ovs i s :
  RegexTokenizer.bpe_body ovs i (lift s)
  = result_map lift (BasicTokenizer.bpe_body ovs i s).
Proof.
  unfold RegexTokenizer.bpe_body, BasicTokenizer.bpe_body. simpl.
  unfold RegexTokenizer._count_pairs, BasicTokenizer._count_pairs.
  destruct (max _ _) as [top|e]; simpl; [|reflexivity].
  destruct (getitem _ top.1); simpl; [|reflexivity].
  destruct (getitem _ top.2); reflexivity.
Qed.

Lemma for_lift ovs items : forall s,
  for_ items (RegexTokenizer.bpe_body ovs) (lift s)
  = result_map lift (for_ items (BasicTokenizer.bpe_body ovs) s).
Proof.
  induction items as [|i items IH]; intros s; simpl; [reflexivity|].
  rewrite bpe_body_lift.
  destruct (BasicTokenizer.bpe_body ovs i s) as [s1|e]; simpl;
    [apply IH|reflexivity].
Qed.

(** [BasicTokenizer._byte_pair_encode] is
    [RegexTokenizer._byte_pair_encode] on the single chunk [tokens]. *)
Lemma _byte_pair_encode_lift tokens ovs n :
  BasicTokenizer._byte_pair_encode tokens ovs n
  = RegexTokenizer._byte_pair_encode [tokens] ovs n.
Proof.
  unfold BasicTokenizer._byte_pair_encode, RegexTokenizer._byte_pair_encode,
    BasicTokenizer.bpe_loop, RegexTokenizer.bpe_loop.
  change (RegexTokenizer.Locals [tokens] [] base_vocab)
    with (lift (BasicTokenizer.Locals tokens [] base_vocab)).
  rewrite for_lift.
  destruct (for_ _ _ _) as [s|e]; reflexivity.
Qed.

Lemma bpe_loop_lift tokens ovs n :
  RegexTokenizer.bpe_loop [tokens] ovs n
  = result_map lift (BasicTokenizer.bpe_loop tokens ovs n).
Proof.
  unfold BasicTokenizer.bpe_loop, RegexTokenizer.bpe_loop.
  change (RegexTokenizer.Locals [tokens] [] base_vocab)
    with (lift (BasicTokenizer.Locals tokens [] base_vocab)).
  apply for_lift.
Qed.

Variable findall : Py.str -> list Py.str.

(** [train], for both classes: the chunks, the loop, then the assignment. *)
Lemma train_unfold v self text V :
  @train _ (tokenizer findall v) self text V
  = match (cs <- chunks_of findall v text ;;
           RegexTokenizer._byte_pair_encode cs V (V - 256)) with
    | Ok (vocab, merges) => (Ok tt, trained v vocab merges)
    | Raise e => (Raise e, self)
    end.
Proof.
  destruct v; simpl.
  - unfold BasicTokenizer.train.
    destruct (Py.encode_utf8 text) as [bs|e]; simpl; [|reflexivity].
    rewrite _byte_pair_encode_lift.
    destruct (RegexTokenizer._byte_pair_encode _ _ _) as [[vocab merges]|e];
      reflexivity.
  - unfold RegexTokenizer.train.
    destruct (bind _ _) as [[vocab merges]|e]; reflexivity.
Qed.

Lemma encode_loop_chunks merges chunks : forall acc,
  RegexTokenizer.encode_loop merges chunks acc
  = (cs <- RegexTokenizer.encode_chunks chunks ;;
     Ok (acc ++ concat (map (replay merges) cs))).
Proof.
  induction chunks as [|c chunks IH]; intros acc; simpl.
  - by rewrite app_nil_r.
  - destruct (Py.encode_utf8 c) as [bs|e]; simpl; [|reflexivity].
    rewrite IH.
    destruct (RegexTokenizer.encode_chunks chunks) as [cs|e]; simpl;
      [|reflexivity].
    by rewrite app_assoc.
Qed.

(** [encode] on a trained tokenizer, for both classes: the merges are
    replayed over each chunk and the results concatenated. *)
Lemma encode_unfold v vocab merges text :
  @encode _ (tokenizer findall v) (trained v vocab merges) text
  = (cs <- chunks_of findall v text ;;
     Ok (concat (map (replay merges) cs))).
Proof.
  destruct v; simpl.
  - unfold BasicTokenizer.encode. simpl.
    destruct (Py.encode_utf8 text) as [bs|e]; simpl; [|reflexivity].
    by rewrite app_nil_r.
  - unfold RegexTokenizer.encode. simpl. apply encode_loop_chunks.
Qed.

Lemma decode_unfold v vocab merges toks :
  @decode _ (tokenizer findall v) (trained v vocab merges) toks
  = (bss <- lookup_all vocab toks ;;
     Ok (Py.decode_utf8_replace (concat bss))).
Proof. destruct v; reflexivity. Qed.

End Variants.

(** ** Tables produced by training *)


Section Tables.
Import Kernel PyLoops.
Variable findall : Py.str -> list Py.str.

Lemma encode_chunks_bytes chunks : forall cs,
  RegexTokenizer.encode_chunks chunks = Ok cs -> byte_chunks cs.
Proof.
  induction chunks as [|c chunks IH]; intros cs; simpl.
  - intros [= <-] chunk t Hin. inversion Hin.
  - destruct (Py.encode_utf8 c) as [bs|e] eqn:Hbs; simpl; [|discriminate].
    destruct (RegexTokenizer.encode_chunks chunks) as [cs'|e]; simpl;
      [|discriminate].
    intros [= <-] chunk t Hin Ht.
    apply elem_of_cons in Hin as [->|Hin].
    + apply encode_utf8_bytes in Hbs.
      rewrite Forall_forall in Hbs. by apply Hbs.
    + by apply (IH cs' eq_refl chunk).
Qed.

Lemma chunks_of_bytes v text cs :
  chunks_of findall v text = Ok cs -> byte_chunks cs.
Proof.
  destruct v; simpl.
  - destruct (Py.encode_utf8 text) as [bs|e] eqn:Hbs; simpl; [|discriminate].
    intros [= <-] chunk t Hin Ht.
    apply list_elem_of_singleton in Hin as ->.
    apply encode_utf8_bytes in Hbs. rewrite Forall_forall in Hbs.
    by apply Hbs.
  - apply encode_chunks_bytes.
Qed.

(** A successful [train]: the loop ran to its end on the chunks of the
    text, and its tables are the new state. *)
Lemma train_Ok v self text V self' :
  @train _ (tokenizer findall v) self text V = (Ok tt, self') ->
  exists cs s,
    chunks_of findall v text = Ok cs /\
    RegexTokenizer.bpe_loop cs V (V - 256) = Ok s /\
    self' = trained v (RegexTokenizer.vocab s) (RegexTokenizer.merges s) /\
    inv V cs (Z.max 0 (V - 256)) s.
Proof.
  rewrite train_unfold.
  destruct (chunks_of findall v text) as [cs|e] eqn:Hcs; simpl;
    [|discriminate].
  unfold RegexTokenizer._byte_pair_encode.
  destruct (RegexTokenizer.bpe_loop cs V (V - 256)) as [s|e] eqn:Hloop; simpl;
    [|discriminate].
  intros [= <-]. exists cs, s.
  split; [reflexivity|]. split; [assumption|]. split; [reflexivity|].
  apply bpe_loop_inv; [by apply (chunks_of_bytes v text)|lia|assumption].
Qed.

(** A failed [train] leaves the tokenizer as it was. *)
Lemma train_Raise v self text V e self' :
  @train _ (tokenizer findall v) self text V = (Raise e, self') ->
  self' = self.
Proof.
  rewrite train_unfold.
  destruct (bind _ _) as [[vocab merges]|e']; [discriminate|].
  by intros [= _ <-].
Qed.

Lemma inv_coherent ovs cs i s :
  inv ovs cs i s ->
  coherent (RegexTokenizer.vocab s) (RegexTokenizer.merges s).
Proof. intros H. split; [apply (inv_bytes _ _ _ _ H)|apply (inv_expand _ _ _ _ H)]. Qed.

Lemma lookup_all_bytes (vocab : VocabDict) bs :
  (forall b, 0 <= b < 256 -> vocab !! b = Some [b]) ->
  Forall Py.byte bs ->
  exists bss, lookup_all vocab bs = Ok bss /\ concat bss = bs.
Proof.
  intros Hv. induction 1 as [|b bs Hb _ (bss & Hl & Hc)].
  - by exists [].
  - exists ([b] :: bss). split.
    + apply lookup_all_cons. exists [b], bss. auto.
    + simpl. by rewrite Hc.
Qed.

(** Replaying merges keeps the bytes that the tokens expand to. *)
Lemma lookup_all_replay (vocab : VocabDict) merges :
  (forall a b n, ((a, b), n) ∈ merges ->
     exists va vb, vocab !! a = Some va /\ vocab !! b = Some vb
                   /\ vocab !! n = Some (va ++ vb)) ->
  forall toks bss, lookup_all vocab toks = Ok bss ->
  exists bss', lookup_all vocab (replay merges toks) = Ok bss'
               /\ concat bss' = concat bss.
Proof.
  unfold replay. induction merges as [|[[a b] n] merges IH];
    intros Hm toks bss Hl; simpl.
  - eauto.
  - destruct (Hm a b n) as (va & vb & Ha & Hb & Hn);
      [apply list_elem_of_here|].
    rewrite _merge_greedy.
    destruct (lookup_all_merge vocab a b n va vb toks Ha Hb Hn _ Hl)
      as (bss1 & Hl1 & Hc1).
    destruct (IH (fun a b n H => Hm a b n (list_elem_of_further _ _ _ H))
                 _ _ Hl1) as (bss2 & Hl2 & Hc2).
    exists bss2. split; [assumption|congruence].
Qed.

Lemma coherent_replay vocab merges bs :
  coherent vocab merges -> Forall Py.byte bs ->
  exists bss, lookup_all vocab (replay merges bs) = Ok bss /\ concat bss = bs.
Proof.
  intros [Hb Hm] Hbs.
  destruct (lookup_all_bytes vocab bs Hb Hbs) as (bss & Hl & Hc).
  destruct (lookup_all_replay vocab merges Hm _ _ Hl) as (bss' & Hl' & Hc').
  exists bss'. split; [assumption|congruence].
Qed.

Lemma lookup_all_app (vocab : VocabDict) t1 t2 b1 b2 :
  lookup_all vocab t1 = Ok b1 -> lookup_all vocab t2 = Ok b2 ->
  lookup_all vocab (t1 ++ t2) = Ok (b1 ++ b2).
Proof.
  revert b1. induction t1 as [|t t1 IH]; intros b1.
  - intros [= <-]. auto.
  - intros (v & bs & Hv & Hl & ->)%lookup_all_cons H2. simpl.
    apply lookup_all_cons. exists v, (bs ++ b2). auto.
Qed.

(** The tokens of a list of chunks expand to the bytes of the chunks. *)
Lemma coherent_replay_chunks vocab merges cs :
  coherent vocab merges -> byte_chunks cs ->
  exists bss, lookup_all vocab (concat (map (replay merges) cs)) = Ok bss
              /\ concat bss = concat cs.
Proof.
  intros Hco. induction cs as [|c cs IH]; intros Hb; simpl.
  - by exists [].
  - destruct (coherent_replay vocab merges c Hco) as (b1 & Hl1 & Hc1).
    { apply Forall_forall. intros t Ht.
      apply (Hb c t); [apply list_elem_of_here|assumption]. }
    destruct IH as (b2 & Hl2 & Hc2).
    { intros chunk t Hin. apply Hb. by apply list_elem_of_further. }
    exists (b1 ++ b2). split; [by apply lookup_all_app|].
    rewrite concat_app. congruence.
Qed.

(** The chunks of a text that the pattern partitions carry its bytes. *)
Lemma encode_chunks_concat chunks : forall bs,
  Py.encode_utf8 (concat chunks) = Ok bs ->
  exists cs, RegexTokenizer.encode_chunks chunks = Ok cs /\ concat cs = bs.
Proof.
  induction chunks as [|c chunks IH]; intros bs; simpl.
  - intros [= <-]. by exists [].
  - intros Henc.
    assert (exists b1 b2, Py.encode_utf8 c = Ok b1
              /\ Py.encode_utf8 (concat chunks) = Ok b2 /\ bs = b1 ++ b2)
      as (b1 & b2 & H1 & H2 & ->).
    { clear IH. revert bs Henc. induction c as [|x c IHc]; intros bs; simpl.
      - intros H. exists [], bs. auto.
      - intros (b & r & Hx & Hr & ->)%encode_utf8_cons.
        destruct (IHc _ Hr) as (b1 & b2 & H1 & H2 & ->).
        exists (b ++ b1), b2. rewrite Hx, H1. simpl.
        rewrite app_assoc. auto. }
    destruct (IH _ H2) as (cs & Hcs & Hc).
    exists (b1 :: cs). rewrite H1, Hcs. simpl. split; congruence.
Qed.

End Tables.

(** ** The sample pattern *)

Lemma space_led_concat text : concat (space_led text) = text.
Proof.
  induction text as [|c text IH]; simpl; [reflexivity|].
  destruct (space_led text) as [|chunk chunks]; simpl in *.
  - by rewrite <- IH.
  - destruct (bool_decide _); simpl; by rewrite IH.
Qed.

Example space_led_ab_cd : space_led ab_cd = [[97; 98]; [32; 99; 100]].
Proof. reflexivity. Qed.

Lemma pair_eta_eq {A B} (p : A * B) (a : A) : p.1 = a -> p = (a, p.2).
Proof. destruct p. simpl. by intros ->. Qed.

(** * The specification, property by property *)

(** ** Token ids and table sizes *)

(** What training yields for [vocab_size >= 256], on both classes: [V]
    vocabulary entries, [V - 256] merges, and the merge of round [i] gets
    the id [V + i], because [train] passes [vocab_size] where
    [_byte_pair_encode] expects the original vocabulary size. *)
Lemma train_tables findall v self text V self' :
  256 <= V ->
  @train _ (tokenizer findall v) self text V = (Ok tt, self') ->
  exists vocab merges,
    self' = trained v vocab merges /\
    Z.of_nat (size vocab) = V /\
    Z.of_nat (length merges) = V - 256 /\
    merges.*2 = seqZ V (V - 256) /\
    forall i, 0 <= i < V - 256 -> merges.*2 !! Z.to_nat i = Some (V + i).
Proof.
  intros HV Htrain.
  destruct (train_Ok findall v self text V self' Htrain)
    as (cs & s & Hcs & Hloop & -> & Hinv).
  rewrite Z.max_r in Hinv by lia.
  exists (RegexTokenizer.vocab s), (RegexTokenizer.merges s).
  split; [reflexivity|].
  split; [rewrite (inv_size _ _ _ _ Hinv); lia|].
  split.
  { rewrite <- (length_fmap snd), (inv_ids _ _ _ _ Hinv), length_seqZ. lia. }
  split; [apply (inv_ids _ _ _ _ Hinv)|].
  intros i Hi. rewrite (inv_ids _ _ _ _ Hinv).
  rewrite lookup_seqZ. split; lia.
Qed.

(** C1 (the code departs from the claim). Training [BasicTokenizer] on
    ["aaab"] with [vocab_size = 257] succeeds and leaves 257 vocabulary
    entries and one merge, but the merge of round 0 has the id 257, not
    256: learned ids start at [vocab_size]. *)
Theorem train_aaab_257_first_id :
  (BasicTokenizer.train BasicTokenizer.__init__ aaab 257).1 = Ok tt /\
  size <$> BasicTokenizer._vocab
             (BasicTokenizer.train BasicTokenizer.__init__ aaab 257).2
    = Some 257%nat /\
  BasicTokenizer._merges
    (BasicTokenizer.train BasicTokenizer.__init__ aaab 257).2
    = Some [((97, 97), 257)] /\
  257 <> 256 + 0.
Proof. vm_compute. repeat split; discriminate. Qed.

(** C2 (the code departs from the claim). After training [BasicTokenizer]
    on ["aaab"] with [vocab_size = 257], the one merge maps [(97, 97)] to
    257; [encode("aaab")] is [[257; 97; 98]], [decode([256; 97; 98])]
    raises [KeyError(256)], and [decode([257; 97; 98])] is ["aaab"]. *)
Theorem train_aaab_257_scenario :
  let self := (BasicTokenizer.train BasicTokenizer.__init__ aaab 257).2 in
  BasicTokenizer._merges self = Some [((97, 97), 257)] /\
  BasicTokenizer.encode self aaab = Ok [257; 97; 98] /\
  BasicTokenizer.decode self [256; 97; 98] = Raise (KeyError 256) /\
  BasicTokenizer.decode self [257; 97; 98] = Ok aaab.
Proof. vm_compute. repeat split. Qed.

(** ** Untrained tokenizers *)

(** C5. On a freshly constructed tokenizer of either class, [encode] and
    [decode] raise the not-trained exception, whatever the input; a [train]
    that raises leaves the tokenizer freshly constructed. *)
Theorem fresh_not_trained findall v (text : Py.str) (tokens : TokenList) :
  @encode _ (tokenizer findall v) (fresh v) text
    = Raise (Exception "Tokenizer has not been trained, cannot encode") /\
  @decode _ (tokenizer findall v) (fresh v) tokens
    = Raise (Exception "Tokenizer has not been trained, cannot decode") /\
  error_kind (Exception "Tokenizer has not been trained, cannot encode")
    = Some NotTrained /\
  error_kind (Exception "Tokenizer has not been trained, cannot decode")
    = Some NotTrained /\
  (forall text0 V e self,
     @train _ (tokenizer findall v) (fresh v) text0 V = (Raise e, self) ->
     self = fresh v).
Proof.
  split; [by destruct v|]. split; [by destruct v|].
  split; [reflexivity|]. split; [reflexivity|].
  intros text0 V e self. apply train_Raise.
Qed.

Lemma fresh_not_trained_witness :
  BasicTokenizer.encode
    (BasicTokenizer.train BasicTokenizer.__init__ [97] 300).2 aaab
  = Raise (Exception "Tokenizer has not been trained, cannot encode").
Proof.
  destruct (fresh_not_trained space_led Byte aaab []) as (He & _ & _ & _ & Hkeep).
  rewrite (Hkeep [97] 300 ValueError
             (BasicTokenizer.train BasicTokenizer.__init__ [97] 300).2);
    [exact He|apply pair_eta_eq; vm_compute; reflexivity].
Defined.

(** ** The merge *)

(** C6. [_merge], of both classes, leaves [tokens] as it was, runs its
    loop to the end and returns the greedy left-to-right merge; on
    [[X; X; X]] with the pair [(X, X)] it returns [[Y; X]], which is not
    [[Y; Y]] when [X] and [Y] differ. *)
Theorem merge_greedy_nonoverlapping (tokens : TokenList) (pair : TokenPair)
    (replacement X Y : Z) :
  Kernel.m_tokens (Kernel.merge_run tokens pair replacement) = tokens /\
  (length tokens <= Kernel.m_i (Kernel.merge_run tokens pair replacement))%nat
  /\
  BasicTokenizer._merge tokens pair replacement
    = Kernel.merge_greedy tokens pair replacement /\
  RegexTokenizer._merge tokens pair replacement
    = Kernel.merge_greedy tokens pair replacement /\
  BasicTokenizer._merge [X; X; X] (X, X) Y = [Y; X] /\
  RegexTokenizer._merge [X; X; X] (X, X) Y = [Y; X] /\
  (X <> Y -> BasicTokenizer._merge [X; X; X] (X, X) Y <> [Y; Y]).
Proof.
  unfold BasicTokenizer._merge, RegexTokenizer._merge.
  assert (HX : Kernel._merge [X; X; X] (X, X) Y = [Y; X]).
  { rewrite _merge_greedy. simpl.
    by rewrite !bool_decide_eq_true_2 by reflexivity. }
  split; [apply merge_while_tokens|].
  split; [apply merge_while_exit; lia|].
  split; [apply _merge_greedy|]. split; [apply _merge_greedy|].
  split; [exact HX|]. split; [exact HX|].
  rewrite HX. congruence.
Qed.

Lemma merge_greedy_nonoverlapping_witness :
  Kernel._merge [7; 7; 7] (7, 7) 300 = [300; 7] /\
  Kernel._merge [7; 7; 7] (7, 7) 300 <> [300; 300].
Proof.
  destruct (merge_greedy_nonoverlapping [7; 7; 7] (7, 7) 300 7 300)
    as (_ & _ & _ & _ & H & _ & Hne).
  split; [exact H|apply Hne; lia].
Defined.

(** ** Round trip *)

Section RoundTrip.
Import Kernel PyLoops.
Variable findall : Py.str -> list Py.str.

(** The byte chunks of a text that encodes, when the pattern partitions
    the text. *)
Lemma chunks_of_concat v T bsT :
  (forall t, concat (findall t) = t) ->
  Py.encode_utf8 T = Ok bsT ->
  exists cs, chunks_of findall v T = Ok cs /\ concat cs = bsT.
Proof.
  intros Hpart HT. destruct v; simpl.
  - rewrite HT. simpl. exists [bsT]. simpl. by rewrite app_nil_r.
  - apply encode_chunks_concat. by rewrite Hpart.
Qed.

End RoundTrip.

(** C3. For a tokenizer of either class whose state comes from a successful
    [train] with [vocab_size >= 256], and a text [T] that encodes to UTF-8,
    [decode(encode(T))] is [T]. The matches of the pattern are taken to
    partition the text they are found in. *)
Theorem decode_encode_roundtrip findall v self text V self' T bsT :
  (forall t, concat (findall t) = t) ->
  256 <= V ->
  @train _ (tokenizer findall v) self text V = (Ok tt, self') ->
  Py.encode_utf8 T = Ok bsT ->
  exists tokens,
    @encode _ (tokenizer findall v) self' T = Ok tokens /\
    @decode _ (tokenizer findall v) self' tokens = Ok T.
Proof.
  intros Hpart HV Htrain HT.
  destruct (train_Ok findall v self text V self' Htrain)
    as (cs & s & Hcs & Hloop & -> & Hinv).
  destruct (chunks_of_concat findall v T bsT Hpart HT) as (csT & HcsT & Hcat).
  exists (concat (map (Kernel.replay (RegexTokenizer.merges s)) csT)).
  rewrite encode_unfold, decode_unfold, HcsT. simpl.
  split; [reflexivity|].
  destruct (coherent_replay_chunks _ _ csT (inv_coherent _ _ _ _ Hinv))
    as (bss & Hl & Hc).
  { by apply (chunks_of_bytes findall v T). }
  rewrite Hl. simpl. rewrite Hc, Hcat.
  by rewrite (decode_encode_utf8 T bsT).
Qed.

Lemma decode_encode_roundtrip_witness :
  (exists tokens,
     RegexTokenizer.encode space_led
       (RegexTokenizer.train space_led RegexTokenizer.__init__ ab_cd 258).2
       ab_cd = Ok tokens /\
     RegexTokenizer.decode
       (RegexTokenizer.train space_led RegexTokenizer.__init__ ab_cd 258).2
       tokens = Ok ab_cd) /\
  (exists tokens,
     BasicTokenizer.encode
       (BasicTokenizer.train BasicTokenizer.__init__ aaab 258).2
       ab_cd = Ok tokens /\
     BasicTokenizer.decode
       (BasicTokenizer.train BasicTokenizer.__init__ aaab 258).2
       tokens = Ok ab_cd).
Proof.
  split.
  - apply (decode_encode_roundtrip space_led Chunked RegexTokenizer.__init__
             ab_cd 258 _ ab_cd [97; 98; 32; 99; 100]);
      [apply space_led_concat|lia
      |apply pair_eta_eq; vm_compute; reflexivity|reflexivity].
  - apply (decode_encode_roundtrip space_led Byte BasicTokenizer.__init__
             aaab 258 _ ab_cd [97; 98; 32; 99; 100]);
      [apply space_led_concat|lia
      |apply pair_eta_eq; vm_compute; reflexivity|reflexivity].
Defined.

(** ** Vocabulary sizes at or below the base alphabet *)

(** C4, as the code has it. When [vocab_size - 256] is negative, [train]
    on a text that encodes to UTF-8 does not raise: no merge is made, and
    the state becomes the 256-entry base vocabulary with no merges, on both
    classes. *)
Theorem train_below_base_succeeds findall v self text V bs :
  (forall t, concat (findall t) = t) ->
  V - 256 < 0 ->
  Py.encode_utf8 text = Ok bs ->
  @train _ (tokenizer findall v) self text V
    = (Ok tt, trained v Kernel.base_vocab []) /\
  size Kernel.base_vocab = 256%nat.
Proof.
  intros Hpart HV Htext. split; [|apply base_vocab_size].
  rewrite train_unfold.
  destruct (chunks_of_concat findall v text bs Hpart Htext) as (cs & -> & _).
  simpl. unfold RegexTokenizer._byte_pair_encode, RegexTokenizer.bpe_loop,
    PyLoops.range.
  replace (seqZ 0 (V - 256)) with (@nil Z)
    by (unfold seqZ; by rewrite Z2Nat.nonpos by lia).
  reflexivity.
Qed.

Lemma train_below_base_succeeds_witness :
  BasicTokenizer.train BasicTokenizer.__init__ aaab 100
    = (Ok tt, BasicTokenizer.Self (Some Kernel.base_vocab) (Some [])) /\
  RegexTokenizer.train space_led RegexTokenizer.__init__ ab_cd 255
    = (Ok tt, RegexTokenizer.Self (Some Kernel.base_vocab) (Some [])).
Proof.
  split.
  - apply (train_below_base_succeeds space_led Byte BasicTokenizer.__init__
             aaab 100 [97; 97; 97; 98]);
      [apply space_led_concat|lia|reflexivity].
  - apply (train_below_base_succeeds space_led Chunked
             RegexTokenizer.__init__ ab_cd 255 [97; 98; 32; 99; 100]);
      [apply space_led_concat|lia|reflexivity].
Defined.

(** C4, as stated, fails: [train("aaab", 100)] has [100 - 256 < 0] and
    raises nothing, so no invalid-configuration error. *)
Lemma train_below_base_no_error :
  100 - 256 < 0 /\
  ~ exists e,
      (BasicTokenizer.train BasicTokenizer.__init__ aaab 100).1 = Raise e
      /\ error_kind e = Some InvalidConfiguration.
Proof.
  split; [lia|]. intros (e & He & _). vm_compute in He. discriminate.
Qed.

(** ** [encode] replays training *)

(** C7. After a successful [train] of [BasicTokenizer], the merge table
    holds one entry per round, in the order of the rounds; [encode] turns
    the text into its UTF-8 byte values and applies [_merge] once per entry
    of the table, in that order; on the training text itself it returns the
    token sequence that the training loop ended with. *)
Theorem encode_replays_training self text V self' :
  BasicTokenizer.train self text V = (Ok tt, self') ->
  exists text_utf8 s,
    Py.encode_utf8 text = Ok text_utf8 /\
    BasicTokenizer.bpe_loop text_utf8 V (V - 256) = Ok s /\
    BasicTokenizer._merges self' = Some (BasicTokenizer.merges s) /\
    length (BasicTokenizer.merges s) = Z.to_nat (V - 256) /\
    (forall T bsT, Py.encode_utf8 T = Ok bsT ->
       BasicTokenizer.encode self' T
       = Ok (fold_left
               (fun tokens entry =>
                  BasicTokenizer._merge tokens entry.1 entry.2)
               (BasicTokenizer.merges s) bsT)) /\
    BasicTokenizer.encode self' text = Ok (BasicTokenizer.tokens s).
Proof.
  unfold BasicTokenizer.train.
  destruct (Py.encode_utf8 text) as [bs|e] eqn:Hbs; simpl; [|discriminate].
  unfold BasicTokenizer._byte_pair_encode.
  destruct (BasicTokenizer.bpe_loop bs V (V - 256)) as [s|e] eqn:Hloop; simpl;
    [|discriminate].
  intros [= <-]. exists bs, s.
  pose proof (bpe_loop_lift bs V (V - 256)) as Hlift.
  rewrite Hloop in Hlift. simpl in Hlift.
  apply bpe_loop_inv in Hlift; [|by apply (chunks_of_bytes (fun t => [t]) Byte text);
                                    simpl; rewrite Hbs|lia].
  split; [reflexivity|]. split; [assumption|]. split; [reflexivity|].
  split.
  { rewrite <- (length_fmap snd).
    change (BasicTokenizer.merges s) with (RegexTokenizer.merges (lift s)).
    rewrite (inv_ids _ _ _ _ Hlift), length_seqZ. lia. }
  split.
  - intros T bsT HT. unfold BasicTokenizer.encode. simpl. by rewrite HT.
  - unfold BasicTokenizer.encode. simpl. rewrite Hbs. simpl.
    pose proof (inv_replay _ _ _ _ Hlift) as Hr. simpl in Hr.
    by injection Hr as <-.
Qed.

Lemma encode_replays_training_witness :
  BasicTokenizer.encode
    (BasicTokenizer.train BasicTokenizer.__init__ aaab 259).2 aaab
  = Ok [261].
Proof.
  destruct (encode_replays_training BasicTokenizer.__init__ aaab 259
              (BasicTokenizer.train BasicTokenizer.__init__ aaab 259).2)
    as (bs & s & Hbs & Hs & _ & _ & _ & ->);
    [apply pair_eta_eq; vm_compute; reflexivity|].
  vm_compute in Hbs. injection Hbs as <-.
  apply (f_equal (result_map BasicTokenizer.tokens)) in Hs.
  vm_compute in Hs. injection Hs as Hs.
  f_equal. symmetry. exact Hs.
Defined.

(** ** Chunks *)

(** C8. After a successful [train] of [RegexTokenizer], [encode] returns
    the concatenation, in chunk order, of the merge table replayed over the
    byte values of each chunk, and the tokens of a chunk expand to the
    bytes of that chunk and nothing else. *)
Theorem encode_per_chunk findall self text V self' T cs :
  RegexTokenizer.train findall self text V = (Ok tt, self') ->
  RegexTokenizer.encode_chunks (findall T) = Ok cs ->
  exists vocab merges,
    self' = RegexTokenizer.Self (Some vocab) (Some merges) /\
    RegexTokenizer.encode findall self' T
      = Ok (concat (map (Kernel.replay merges) cs)) /\
    forall chunk_bytes, chunk_bytes ∈ cs ->
      exists bss,
        Kernel.lookup_all vocab (Kernel.replay merges chunk_bytes) = Ok bss
        /\ concat bss = chunk_bytes.
Proof.
  intros Htrain HT.
  destruct (train_Ok findall Chunked self text V self' Htrain)
    as (cs0 & s & Hcs & Hloop & -> & Hinv).
  exists (RegexTokenizer.vocab s), (RegexTokenizer.merges s).
  split; [reflexivity|]. split.
  - pose proof (encode_unfold findall Chunked (RegexTokenizer.vocab s)
                  (RegexTokenizer.merges s) T) as He.
    simpl in He. rewrite HT in He. exact He.
  - intros c Hc.
    apply coherent_replay; [by apply (inv_coherent _ _ _ _ Hinv)|].
    apply Forall_forall. intros t Ht.
    by apply (encode_chunks_bytes _ _ HT c).
Qed.

Lemma encode_per_chunk_witness :
  RegexTokenizer.encode space_led
    (RegexTokenizer.train space_led RegexTokenizer.__init__ ab_cd 258).2 ab_cd
  = Ok ([258] ++ [259; 100]).
Proof.
  destruct (encode_per_chunk space_led RegexTokenizer.__init__ ab_cd 258
              (RegexTokenizer.train space_led RegexTokenizer.__init__
                 ab_cd 258).2
              ab_cd [[97; 98]; [32; 99; 100]])
    as (vocab & merges & Hself & -> & _);
    [apply pair_eta_eq; vm_compute; reflexivity|reflexivity|].
  apply (f_equal RegexTokenizer._merges) in Hself.
  vm_compute in Hself. injection Hself as <-. reflexivity.
Defined.

(** ** [decode] *)

Section Decode.
Import Kernel PyLoops.

Lemma lookup_all_Raise (vocab : VocabDict) tokens e :
  lookup_all vocab tokens = Raise e ->
  exists t, e = KeyError t /\ t ∈ tokens /\ vocab !! t = None.
Proof.
  induction tokens as [|t tokens IH]; simpl; [discriminate|].
  unfold getitem. destruct (vocab !! t) as [b|] eqn:Ht; simpl.
  - destruct (lookup_all vocab tokens) as [bs|e']; simpl; [discriminate|].
    intros [= <-]. destruct (IH eq_refl) as (t' & -> & Hin & Hn).
    exists t'. split; [reflexivity|]. split; [|assumption].
    by apply list_elem_of_further.
  - intros [= <-]. exists t. split; [reflexivity|].
    split; [apply list_elem_of_here|assumption].
Qed.

Lemma lookup_all_Ok (vocab : VocabDict) tokens bss :
  lookup_all vocab tokens = Ok bss ->
  forall t, t ∈ tokens -> is_Some (vocab !! t).
Proof.
  revert bss. induction tokens as [|t tokens IH]; intros bss.
  - intros _ t Hin. inversion Hin.
  - intros (b & bs & Hb & Hl & ->)%lookup_all_cons t' Hin.
    apply elem_of_cons in Hin as [->|Hin]; [by eexists|].
    by apply (IH bs).
Qed.

Lemma lookup_all_total (vocab : VocabDict) tokens :
  (forall t, t ∈ tokens -> is_Some (vocab !! t)) ->
  exists bss, lookup_all vocab tokens = Ok bss.
Proof.
  intros Hall. destruct (lookup_all vocab tokens) as [bss|e] eqn:Hl;
    [by eexists|].
  apply lookup_all_Raise in Hl as (t & _ & Hin & Hn).
  destruct (Hall t Hin) as [b Hb]. congruence.
Qed.

Lemma lookup_all_vals (vocab : VocabDict) tokens :
  (forall k bs, vocab !! k = Some bs -> Forall Py.byte bs) ->
  forall bss, lookup_all vocab tokens = Ok bss -> Forall Py.byte (concat bss).
Proof.
  intros Hv. induction tokens as [|t tokens IH]; intros bss.
  - intros [= <-]. constructor.
  - intros (b & bs & Hb & Hl & ->)%lookup_all_cons. simpl.
    apply Forall_app. split; [by apply (Hv t)|by apply IH].
Qed.

End Decode.

(** C9. On a tokenizer of either class whose state comes from a successful
    [train], [decode] raises the unknown-token exception exactly when some
    id of the list has no vocabulary entry, and it raises nothing else;
    when every id has an entry it returns the lenient UTF-8 decoding of the
    concatenated bytes, a string of scalar values in which an ill-formed
    lead byte has become U+FFFD and decoding has gone on. *)
Theorem decode_unknown_token findall v self0 text V self tokens :
  @train _ (tokenizer findall v) self0 text V = (Ok tt, self) ->
  exists vocab merges,
    self = trained v vocab merges /\
    ((exists e, @decode _ (tokenizer findall v) self tokens = Raise e
                /\ error_kind e = Some UnknownToken)
     <-> (exists t, t ∈ tokens /\ vocab !! t = None)) /\
    (forall e, @decode _ (tokenizer findall v) self tokens = Raise e ->
       exists t, e = KeyError t /\ t ∈ tokens /\ vocab !! t = None) /\
    ((forall t, t ∈ tokens -> is_Some (vocab !! t)) ->
       exists bss,
         Kernel.lookup_all vocab tokens = Ok bss /\
         @decode _ (tokenizer findall v) self tokens
           = Ok (Py.decode_utf8_replace (concat bss)) /\
         Forall Py.scalar (Py.decode_utf8_replace (concat bss))) /\
    (forall b rest, Py.classify b = Py.Bad ->
       Py.decode_utf8_replace (b :: rest)
       = Py.REPLACEMENT :: Py.decode_utf8_replace rest).
Proof.
  intros Htrain.
  destruct (train_Ok findall v self0 text V self Htrain)
    as (cs & s & Hcs & Hloop & -> & Hinv).
  exists (RegexTokenizer.vocab s), (RegexTokenizer.merges s).
  split; [reflexivity|]. rewrite decode_unfold.
  assert (Hraise : forall e,
    (bss <- Kernel.lookup_all (RegexTokenizer.vocab s) tokens ;;
     Ok (Py.decode_utf8_replace (concat bss))) = Raise e ->
    exists t, e = KeyError t /\ t ∈ tokens
              /\ RegexTokenizer.vocab s !! t = None).
  { intros e.
    destruct (Kernel.lookup_all _ tokens) as [bss|e'] eqn:Hl; simpl;
      [discriminate|].
    intros [= <-]. by apply lookup_all_Raise. }
  split; [split|split; [exact Hraise|split]].
  - intros (e & He & _). destruct (Hraise e He) as (t & _ & ? & ?). eauto.
  - intros (t & Hin & Hn).
    destruct (Kernel.lookup_all _ tokens) as [bss|e] eqn:Hl; simpl.
    + destruct (lookup_all_Ok _ _ _ Hl t Hin) as [b Hb]. congruence.
    + exists e. split; [reflexivity|].
      apply lookup_all_Raise in Hl as (t' & -> & _). reflexivity.
  - intros Hall.
    destruct (lookup_all_total _ _ Hall) as (bss & Hl).
    exists bss. rewrite Hl. simpl. split; [reflexivity|].
    split; [reflexivity|].
    apply decode_scalar, (lookup_all_vals (RegexTokenizer.vocab s) tokens);
      [apply (inv_vals _ _ _ _ Hinv)|assumption].
  - apply decode_bad.
Qed.

Lemma decode_unknown_token_witness :
  exists e,
    BasicTokenizer.decode
      (BasicTokenizer.train BasicTokenizer.__init__ aaab 257).2 [256; 97; 98]
    = Raise e /\ error_kind e = Some UnknownToken.
Proof.
  destruct (decode_unknown_token space_led Byte BasicTokenizer.__init__ aaab
              257 (BasicTokenizer.train BasicTokenizer.__init__ aaab 257).2
              [256; 97; 98])
    as (vocab & merges & Hself & Hiff & _);
    [apply pair_eta_eq; vm_compute; reflexivity|].
  apply Hiff. exists 256. split; [apply list_elem_of_here|].
  apply (f_equal BasicTokenizer._vocab) in Hself.
  change (BasicTokenizer._vocab (trained Byte vocab merges))
    with (Some vocab) in Hself.
  assert (Hc : BasicTokenizer._vocab
                 (BasicTokenizer.train BasicTokenizer.__init__ aaab 257).2
               ≫= (fun vocab => vocab !! 256) = None)
    by (vm_compute; reflexivity).
  rewrite Hself in Hc. exact Hc.
Defined.

(** ** [train] is partial above the base alphabet *)

Section NoPair.
Import Kernel PyLoops.

Lemma keys_no_pair (cs : list TokenList) :
  (forall c, c ∈ cs -> (length c < 2)%nat) ->
  Dict.keys
    (fold_left (fun pair_counts chunk =>
                  RegexTokenizer._count_pairs chunk pair_counts) cs [])
  = [].
Proof.
  intros Hshort. apply elem_of_nil_inv. intros q Hq.
  apply keys_count_chunks in Hq as [Hq|(c & Hc & Hq)]; [inversion Hq|].
  rewrite pairs_short in Hq by (by apply Hshort). inversion Hq.
Qed.

Lemma bpe_body_no_pair ovs i s :
  (forall c, c ∈ RegexTokenizer.token_chunks s -> (length c < 2)%nat) ->
  RegexTokenizer.bpe_body ovs i s = Raise ValueError.
Proof.
  intros Hshort. unfold RegexTokenizer.bpe_body.
  by rewrite keys_no_pair.
Qed.

Lemma for_no_pair ovs n s :
  0 < n ->
  (forall c, c ∈ RegexTokenizer.token_chunks s -> (length c < 2)%nat) ->
  for_ (range n) (RegexTokenizer.bpe_body ovs) s = Raise ValueError.
Proof.
  intros Hn Hshort. unfold range. rewrite seqZ_cons by lia.
  cbn [for_]. by rewrite bpe_body_no_pair.
Qed.

End NoPair.

(** C10. For [vocab_size > 256], when no chunk that [train] starts from has
    two byte values (for [BasicTokenizer]: the UTF-8 encoding of the text is
    shorter than two bytes), the first round takes [max] of an empty dict:
    [train] raises [ValueError], which is none of the three error kinds, and
    the tokenizer keeps the state it had. *)
Theorem train_no_pair_raises findall v self text V cs :
  256 < V ->
  chunks_of findall v text = Ok cs ->
  (forall c, c ∈ cs -> (length c < 2)%nat) ->
  @train _ (tokenizer findall v) self text V = (Raise ValueError, self) /\
  error_kind ValueError = None.
Proof.
  intros HV Hcs Hshort. split; [|reflexivity].
  rewrite train_unfold, Hcs. cbn [bind].
  unfold RegexTokenizer._byte_pair_encode, RegexTokenizer.bpe_loop.
  rewrite for_no_pair by (assumption || lia). reflexivity.
Qed.

Lemma train_no_pair_raises_witness :
  BasicTokenizer.train
    (BasicTokenizer.train BasicTokenizer.__init__ aaab 257).2 [97] 300
  = (Raise ValueError,
     (BasicTokenizer.train BasicTokenizer.__init__ aaab 257).2) /\
  RegexTokenizer.train space_led RegexTokenizer.__init__ [97; 32] 300
  = (Raise ValueError, RegexTokenizer.__init__).
Proof.
  split.
  - apply (train_no_pair_raises space_led Byte
             (BasicTokenizer.train BasicTokenizer.__init__ aaab 257).2
             [97] 300 [[97]]); [lia|reflexivity|].
    intros c Hc. apply list_elem_of_singleton in Hc as ->. simpl. lia.
  - apply (train_no_pair_raises space_led Chunked RegexTokenizer.__init__
             [97; 32] 300 [[97]; [32]]); [lia|reflexivity|].
    intros c Hc.
    repeat (apply elem_of_cons in Hc as [->|Hc]; [simpl; lia|]).
    inversion Hc.
Defined.

(** * Further properties of the code *)

(** ** Counting pairs *)

Section DictMore.
Context {K V : Type} `{EqDecision K}.
Implicit Types (d : list (K * V)) (k q : K) (v : V).

Lemma get_setitem d k v q :
  Dict.get (Dict.setitem d k v) q
  = if decide (k = q) then Some v else Dict.get d q.
Proof.
  induction d as [|[k' v'] d IH]; simpl.
  - destruct (decide (k = q)); reflexivity.
  - destruct (decide (k' = k)) as [->|Hne]; simpl.
    + destruct (decide (k = q)); reflexivity.
    + destruct (decide (k' = q)) as [->|Hq].
      * by rewrite decide_False by congruence.
      * apply IH.
Qed.

Lemma keys_setitem_eq d k v :
  Dict.keys (Dict.setitem d k v)
  = if decide (k ∈ Dict.keys d) then Dict.keys d else Dict.keys d ++ [k].
Proof.
  unfold Dict.keys. induction d as [|[k' v'] d IH]; csimpl.
  - reflexivity.
  - destruct (decide (k' = k)) as [->|Hne]; csimpl.
    + rewrite decide_True by apply list_elem_of_here. reflexivity.
    + rewrite IH. destruct (decide (k ∈ d.*1)) as [Hin|Hnin].
      * rewrite decide_True by (by apply list_elem_of_further). reflexivity.
      * rewrite decide_False; [reflexivity|].
        rewrite elem_of_cons. intros [?|?]; congruence.
Qed.

Lemma get_is_Some d q : is_Some (Dict.get d q) <-> q ∈ Dict.keys d.
Proof.
  unfold Dict.keys. induction d as [|[k' v'] d IH]; simpl.
  - rewrite elem_of_nil. split; [intros [? [=]]|tauto].
  - rewrite elem_of_cons. destruct (decide (k' = q)) as [->|Hne].
    + split; [auto|by eexists].
    + rewrite IH. split; [auto|]. intros [?|?]; [congruence|assumption].
Qed.

End DictMore.

Section Counting.
Import Kernel.

Lemma occurrences_cons q p ps :
  occurrences q (p :: ps)
  = (if decide (p = q) then 1 else 0) + occurrences q ps.
Proof.
  unfold occurrences. rewrite filter_cons.
  destruct (decide (p = q)); simpl; lia.
Qed.

Lemma occurrences_app q l1 l2 :
  occurrences q (l1 ++ l2) = occurrences q l1 + occurrences q l2.
Proof. unfold occurrences. rewrite filter_app, length_app. lia. Qed.

Lemma occurrences_nonneg q ps : 0 <= occurrences q ps.
Proof. unfold occurrences. lia. Qed.

Lemma occurrences_pos q ps : 0 < occurrences q ps <-> q ∈ ps.
Proof.
  induction ps as [|p ps IH].
  - unfold occurrences. simpl. rewrite elem_of_nil. lia.
  - rewrite occurrences_cons, elem_of_cons.
    pose proof (occurrences_nonneg q ps).
    destruct (decide (p = q)) as [->|Hne]; [split; [auto|lia]|].
    rewrite Z.add_0_l, IH. split; [auto|]. intros [?|?]; [congruence|auto].
Qed.

Lemma first_seen_cons p ps seen :
  first_seen (p :: ps) seen
  = first_seen ps (if decide (p ∈ seen) then seen else seen ++ [p]).
Proof. reflexivity. Qed.

Lemma first_seen_app l1 l2 seen :
  first_seen (l1 ++ l2) seen = first_seen l2 (first_seen l1 seen).
Proof. unfold first_seen. apply fold_left_app. Qed.

Lemma first_seen_prefix ps : forall seen,
  exists new, first_seen ps seen = seen ++ new.
Proof.
  induction ps as [|p ps IH]; intros seen.
  - exists []. by rewrite app_nil_r.
  - rewrite first_seen_cons. destruct (decide (p ∈ seen)); [apply IH|].
    destruct (IH (seen ++ [p])) as [new ->].
    exists (p :: new). by rewrite <- app_assoc.
Qed.

Lemma first_seen_elem ps : forall seen q,
  q ∈ first_seen ps seen <-> q ∈ seen \/ q ∈ ps.
Proof.
  induction ps as [|p ps IH]; intros seen q.
  - simpl. rewrite elem_of_nil. tauto.
  - rewrite first_seen_cons, IH, elem_of_cons.
    destruct (decide (p ∈ seen)) as [Hin|Hnin].
    + split; [tauto|]. intros [?|[->|?]]; auto.
    + rewrite elem_of_app, list_elem_of_singleton. tauto.
Qed.

Lemma first_seen_NoDup ps : forall seen,
  NoDup seen -> NoDup (first_seen ps seen).
Proof.
  induction ps as [|p ps IH]; intros seen Hnd; [assumption|].
  rewrite first_seen_cons. apply IH.
  destruct (decide (p ∈ seen)) as [Hin|Hnin]; [assumption|].
  apply NoDup_app. split; [assumption|].
  split; [|apply NoDup_singleton].
  intros x Hx Hx'. apply list_elem_of_singleton in Hx' as ->. auto.
Qed.

Lemma count_fold_get ps : forall (pc : PairCounts) q,
  Dict.get_default (fold_left count_step ps pc) q 0
  = Dict.get_default pc q 0 + occurrences q ps.
Proof.
  induction ps as [|p ps IH]; intros pc q; simpl.
  - unfold occurrences. simpl. lia.
  - rewrite IH, occurrences_cons. unfold count_step at 1, Dict.get_default at 1.
    rewrite get_setitem. destruct (decide (p = q)) as [->|Hne]; simpl.
    + unfold Dict.get_default. lia.
    + unfold Dict.get_default. lia.
Qed.

Lemma count_fold_keys ps : forall (pc : PairCounts),
  Dict.keys (fold_left count_step ps pc) = first_seen ps (Dict.keys pc).
Proof.
  induction ps as [|p ps IH]; intros pc; [reflexivity|].
  rewrite first_seen_cons. cbn [fold_left]. rewrite IH.
  unfold count_step. by rewrite keys_setitem_eq.
Qed.

Lemma count_fold_positive ps : forall (pc : PairCounts),
  (forall q n, Dict.get pc q = Some n -> 1 <= n) ->
  forall q n, Dict.get (fold_left count_step ps pc) q = Some n -> 1 <= n.
Proof.
  induction ps as [|p ps IH]; intros pc Hpc; simpl; [assumption|].
  apply IH. intros q n. unfold count_step. rewrite get_setitem.
  destruct (decide (p = q)) as [->|Hne]; [|apply Hpc].
  intros [= <-]. unfold Dict.get_default.
  destruct (Dict.get pc q) as [m|] eqn:Hm; simpl; [|lia].
  specialize (Hpc q m Hm). lia.
Qed.

Lemma count_into_fold tokens pc :
  count_into tokens pc = fold_left count_step (pairs tokens) pc.
Proof. reflexivity. Qed.

Lemma count_chunks_fold chunks : forall pc,
  fold_left (fun pair_counts chunk =>
               RegexTokenizer._count_pairs chunk pair_counts) chunks pc
  = fold_left count_step (chunk_pairs chunks) pc.
Proof.
  unfold chunk_pairs.
  induction chunks as [|c chunks IH]; intros pc; simpl; [reflexivity|].
  rewrite fold_left_app, <- IH. reflexivity.
Qed.

End Counting.

Lemma count_get_char ps (q : TokenPair) :
  Dict.get (fold_left count_step ps []) q
  = if decide (q ∈ ps) then Some (occurrences q ps) else None.
Proof.
  pose proof (count_fold_get ps [] q) as Hget.
  pose proof (get_is_Some (fold_left count_step ps []) q) as Hsome.
  rewrite count_fold_keys, first_seen_elem in Hsome.
  unfold Dict.get_default in Hget. simpl in Hget.
  destruct (decide (q ∈ ps)) as [Hin|Hnin].
  - destruct (proj2 Hsome (or_intror Hin)) as [n Hn].
    rewrite Hn in Hget |- *. simpl in Hget. f_equal. lia.
  - destruct (Dict.get _ q) as [n|] eqn:Hn; [|reflexivity].
    destruct (proj1 Hsome (ex_intro _ n eq_refl)) as [Hq|Hq];
      [inversion Hq|contradiction].
Qed.

(** X1. [_count_pairs] of basic.py (and of tokenizer.py, the same text)
    maps each pair of adjacent tokens to the number of places where it
    occurs, holds no entry for a pair that does not occur, and lists its
    keys without repeats in the order the pairs are first met. *)
Theorem count_pairs_counts (tokens : TokenList) (q : TokenPair) :
  let counts := BasicTokenizer._count_pairs tokens in
  Dict.get counts q
    = (if decide (q ∈ pairs tokens)
       then Some (occurrences q (pairs tokens)) else None) /\
  Dict.keys counts = first_seen (pairs tokens) [] /\
  NoDup (Dict.keys counts) /\
  TokenizerPy._count_pairs tokens = counts.
Proof.
  unfold BasicTokenizer._count_pairs, TokenizerPy._count_pairs.
  rewrite count_into_fold. cbn zeta.
  split; [apply count_get_char|].
  rewrite count_fold_keys. split; [reflexivity|].
  split; [apply first_seen_NoDup, NoDup_nil_2|reflexivity].
Qed.

(** X2. [_count_pairs] of regex.py adds to the dict it is given: each
    count grows by the number of occurrences in [tokens], the keys already
    there keep their places, and the new keys follow in the order the pairs
    are first met. *)
Theorem count_pairs_accumulates (tokens : TokenList) (pair_counts : PairCounts)
    (q : TokenPair) :
  let counts := RegexTokenizer._count_pairs tokens pair_counts in
  Dict.get_default counts q 0
    = Dict.get_default pair_counts q 0 + occurrences q (pairs tokens) /\
  Dict.keys counts = first_seen (pairs tokens) (Dict.keys pair_counts) /\
  (exists new, Dict.keys counts = Dict.keys pair_counts ++ new) /\
  (NoDup (Dict.keys pair_counts) -> NoDup (Dict.keys counts)).
Proof.
  unfold RegexTokenizer._count_pairs. rewrite count_into_fold. cbn zeta.
  split; [apply count_fold_get|]. rewrite count_fold_keys.
  split; [reflexivity|]. split; [apply first_seen_prefix|].
  apply first_seen_NoDup.
Qed.

Lemma occurrences_chunk_pairs q chunks :
  occurrences q (chunk_pairs chunks)
  = foldr Z.add 0 (map (fun chunk => occurrences q (pairs chunk)) chunks).
Proof.
  unfold chunk_pairs. induction chunks as [|c chunks IH]; simpl.
  - reflexivity.
  - rewrite occurrences_app, IH. reflexivity.
Qed.

(** X3. The pair counts that a round of [RegexTokenizer._byte_pair_encode]
    gathers over all chunks give each pair the sum of its occurrences
    inside the chunks: a pair made of the last token of a chunk and the
    first token of the next is not counted. *)
Theorem chunk_counts_within_chunks (chunks : list TokenList) (q : TokenPair) :
  let pair_counts :=
    fold_left (fun pair_counts chunk =>
                 RegexTokenizer._count_pairs chunk pair_counts) chunks [] in
  Dict.get pair_counts q
    = (if decide (q ∈ chunk_pairs chunks)
       then Some (foldr Z.add 0
                    (map (fun chunk => occurrences q (pairs chunk)) chunks))
       else None) /\
  Dict.keys pair_counts = first_seen (chunk_pairs chunks) [] /\
  (forall x y, Dict.keys
     (fold_left (fun pair_counts chunk =>
                   RegexTokenizer._count_pairs chunk pair_counts)
        [[x]; [y]] []) = []).
Proof.
  cbn zeta. rewrite count_chunks_fold, count_get_char, count_fold_keys.
  rewrite occurrences_chunk_pairs. repeat split.
Qed.

(** ** The pair a round merges *)

Section TopPair.
Import Kernel PyLoops.

Lemma max_from_spec {K} (key : K -> Z) (items : list K) : forall best k,
  max_from key best items = k ->
  (k = best /\ forall q, q ∈ items -> key q <= key best) \/
  (exists l1 l2, items = l1 ++ k :: l2 /\ key best < key k /\
     (forall q, q ∈ l1 -> key q < key k) /\
     (forall q, q ∈ l2 -> key q <= key k)).
Proof.
  induction items as [|x items IH]; intros best k; simpl.
  - intros <-. left. split; [reflexivity|]. intros q Hq. inversion Hq.
  - destruct (Z.ltb_spec (key best) (key x)) as [Hlt|Hge]; intros Hk.
    + right. destruct (IH _ _ Hk) as [[-> Hall]|(l1 & l2 & -> & Hx & H1 & H2)].
      * exists [], items. repeat split; [assumption| |assumption].
        intros q Hq. inversion Hq.
      * exists (x :: l1), l2. repeat split; [lia| |assumption].
        intros q Hq. apply elem_of_cons in Hq as [->|Hq]; [lia|auto].
    + destruct (IH _ _ Hk) as [[-> Hall]|(l1 & l2 & -> & Hx & H1 & H2)].
      * left. split; [reflexivity|].
        intros q Hq. apply elem_of_cons in Hq as [->|Hq]; [lia|auto].
      * right. exists (x :: l1), l2. repeat split; [assumption| |assumption].
        intros q Hq. apply elem_of_cons in Hq as [->|Hq]; [lia|auto].
Qed.

(** [max] returns the first item whose key is largest. *)
Lemma max_spec {K} (items : list K) (key : K -> Z) k :
  max items key = Ok k ->
  exists l1 l2, items = l1 ++ k :: l2 /\
    (forall q, q ∈ l1 -> key q < key k) /\
    (forall q, q ∈ l2 -> key q <= key k).
Proof.
  destruct items as [|x items]; simpl; [discriminate|]. intros [= Hk].
  destruct (max_from_spec key items _ _ Hk)
    as [[-> Hall]|(l1 & l2 & -> & Hx & H1 & H2)].
  - exists [], items. repeat split; [|assumption].
    intros q Hq. inversion Hq.
  - exists (x :: l1), l2. repeat split; [|assumption].
    intros q Hq. apply elem_of_cons in Hq as [->|Hq]; [lia|auto].
Qed.

(** The pair that [max(pair_counts, key=pair_counts.get)] picks from the
    counts of [ps]. *)
Lemma max_counts_most_frequent ps top :
  (let pair_counts := fold_left count_step ps [] in
   max (Dict.keys pair_counts)
       (fun pair => Dict.get_default pair_counts pair 0)) = Ok top ->
  most_frequent_first ps top.
Proof.
  cbn zeta. intros Hmax.
  assert (Hkey : forall q,
    Dict.get_default (fold_left count_step ps []) q 0 = occurrences q ps).
  { intros q. rewrite count_fold_get. unfold Dict.get_default. simpl. lia. }
  destruct (max_spec _ _ _ Hmax) as (l1 & l2 & Hkeys & H1 & H2).
  rewrite count_fold_keys in Hkeys.
  change (first_seen ps (Dict.keys [])) with (first_seen ps []) in Hkeys.
  assert (Hin : top ∈ ps).
  { assert (top ∈ first_seen ps []) as Ht
      by (rewrite Hkeys, elem_of_app, elem_of_cons; auto).
    apply first_seen_elem in Ht as [Ht|Ht]; [inversion Ht|assumption]. }
  split; [assumption|]. split.
  - intros q. destruct (decide (q ∈ ps)) as [Hq|Hq].
    + assert (q ∈ first_seen ps []) as Hq'
        by (apply first_seen_elem; auto).
      rewrite Hkeys, elem_of_app, elem_of_cons in Hq'.
      rewrite <- !Hkey. destruct Hq' as [Hq'|[->|Hq']];
        [specialize (H1 _ Hq'); lia|lia|exact (H2 _ Hq')].
    + pose proof (occurrences_nonneg q ps) as H0.
      pose proof (proj2 (occurrences_pos top ps) Hin) as Ht.
      assert (~ 0 < occurrences q ps) by (by rewrite occurrences_pos).
      lia.
  - exists l1, l2. split; [assumption|].
    intros q Hq. rewrite <- !Hkey. by apply H1.
Qed.

End TopPair.

(** X4. A round of [_byte_pair_encode] that does not raise merges a pair
    that occurs most often among the adjacent pairs of the current tokens
    (in [RegexTokenizer]: of the chunks, chunk by chunk); when several
    pairs occur equally often it is the one first met from the left. The
    pair is recorded under the id [original_vocab_size + i]. *)
Theorem round_merges_most_frequent (ovs i : Z) :
  (forall s s', BasicTokenizer.bpe_body ovs i s = Ok s' ->
     exists top,
       most_frequent_first (pairs (BasicTokenizer.tokens s)) top /\
       BasicTokenizer.tokens s'
         = BasicTokenizer._merge (BasicTokenizer.tokens s) top (ovs + i) /\
       BasicTokenizer.merges s'
         = Dict.setitem (BasicTokenizer.merges s) top (ovs + i)) /\
  (forall s s', RegexTokenizer.bpe_body ovs i s = Ok s' ->
     exists top,
       most_frequent_first (chunk_pairs (RegexTokenizer.token_chunks s)) top
       /\
       RegexTokenizer.token_chunks s'
         = map (fun chunk => RegexTokenizer._merge chunk top (ovs + i))
             (RegexTokenizer.token_chunks s) /\
       RegexTokenizer.merges s'
         = Dict.setitem (RegexTokenizer.merges s) top (ovs + i)).
Proof.
  split; intros s s'.
  - unfold BasicTokenizer.bpe_body, BasicTokenizer._count_pairs.
    rewrite count_into_fold.
    destruct (PyLoops.max _ _) as [top|e] eqn:Hmax; simpl; [|discriminate].
    destruct (PyLoops.getitem _ top.1); simpl; [|discriminate].
    destruct (PyLoops.getitem _ top.2); simpl; [|discriminate].
    intros [= <-]. exists top. simpl.
    split; [by apply max_counts_most_frequent|]. split; reflexivity.
  - unfold RegexTokenizer.bpe_body. rewrite count_chunks_fold.
    destruct (PyLoops.max _ _) as [top|e] eqn:Hmax; simpl; [|discriminate].
    destruct (PyLoops.getitem _ top.1); simpl; [|discriminate].
    destruct (PyLoops.getitem _ top.2); simpl; [|discriminate].
    intros [= <-]. exists top. simpl.
    split; [by apply max_counts_most_frequent|]. split; reflexivity.
Qed.

Lemma round_merges_most_frequent_witness :
  exists top, most_frequent_first (pairs aaab) top.
Proof.
  destruct (BasicTokenizer.bpe_body 256 0
              (BasicTokenizer.Locals aaab [] {[97 := [97]]}))
    as [s'|e] eqn:E.
  - destruct (proj1 (round_merges_most_frequent 256 0) _ _ E)
      as (top & H & _).
    exists top. exact H.
  - vm_compute in E. discriminate.
Defined.

(** ** More on the merge *)

Section MergeMore.
Import Kernel.

Lemma merge_greedy_length l p r :
  (length (merge_greedy l p r) <= length l)%nat /\
  (length l <= 2 * length (merge_greedy l p r))%nat.
Proof.
  induction l as [|x|x y l IHl IHyl] using list_ind_pairs.
  - simpl. lia.
  - simpl. lia.
  - rewrite merge_greedy_cons2. destruct (_ && _); simpl in *; lia.
Qed.

Lemma merge_greedy_absent l p r :
  p ∉ pairs l -> merge_greedy l p r = l.
Proof.
  induction l as [|x|x y l IHl IHyl] using list_ind_pairs; try reflexivity.
  rewrite pairs_cons2, not_elem_of_cons. intros [Hne Hnin].
  rewrite merge_greedy_cons2.
  destruct (bool_decide_reflect (x = p.1)) as [Hx|Hx];
    [destruct (bool_decide_reflect (y = p.2)) as [Hy|Hy]|]; cbn [andb].
  - destruct Hne. destruct p. simpl in *. congruence.
  - by rewrite IHyl.
  - by rewrite IHyl.
Qed.

Lemma merge_greedy_present l p r :
  p ∈ pairs l -> (length (merge_greedy l p r) < length l)%nat.
Proof.
  induction l as [|x|x y l IHl IHyl] using list_ind_pairs.
  - inversion 1.
  - inversion 1.
  - rewrite pairs_cons2, elem_of_cons, merge_greedy_cons2.
    destruct (bool_decide_reflect (x = p.1)) as [Hx|Hx];
      [destruct (bool_decide_reflect (y = p.2)) as [Hy|Hy]|]; cbn [andb].
    + intros _. pose proof (merge_greedy_length l p r). simpl. lia.
    + intros [Heq|Hin]; [destruct p; simpl in *; congruence|].
      specialize (IHyl Hin). simpl in *. lia.
    + intros [Heq|Hin]; [destruct p; simpl in *; congruence|].
      specialize (IHyl Hin). simpl in *. lia.
Qed.

Lemma merge_greedy_removes l p r :
  r <> p.1 -> r <> p.2 -> p ∉ pairs (merge_greedy l p r).
Proof.
  intros H1 H2 Hin. destruct p as [a b]. simpl in *.
  apply merge_greedy_pairs in Hin as [?|[?|[_ ?]]]; congruence.
Qed.

Lemma unmerge_cons p r t l :
  unmerge p r (t :: l)
  = (if decide (t = r) then [p.1; p.2] else [t]) ++ unmerge p r l.
Proof. reflexivity. Qed.

Lemma unmerge_merge_greedy l p r :
  r ∉ l -> unmerge p r (merge_greedy l p r) = l.
Proof.
  induction l as [|x|x y l IHl IHyl] using list_ind_pairs.
  - reflexivity.
  - rewrite not_elem_of_cons. intros [Hx _]. simpl.
    rewrite unmerge_cons, decide_False by congruence. reflexivity.
  - intros Hnin.
    apply not_elem_of_cons in Hnin as [Hx Hnin].
    pose proof Hnin as Hyl.
    apply not_elem_of_cons in Hnin as [Hy Hl].
    rewrite merge_greedy_cons2.
    destruct (bool_decide_reflect (x = p.1)) as [Hx1|Hx1];
      [destruct (bool_decide_reflect (y = p.2)) as [Hy2|Hy2]|]; cbn [andb];
      rewrite unmerge_cons.
    + rewrite decide_True by reflexivity. rewrite IHl by assumption.
      subst. reflexivity.
    + rewrite decide_False by congruence. by rewrite IHyl.
    + rewrite decide_False by congruence. by rewrite IHyl.
Qed.

End MergeMore.

(** X5. [_merge] never returns more tokens than it is given and never
    fewer than half; it returns strictly fewer exactly when the pair occurs
    in [tokens], and returns [tokens] itself when the pair does not
    occur. *)
Theorem merge_length (tokens : TokenList) (pair : TokenPair) (r : Z) :
  (length (BasicTokenizer._merge tokens pair r) <= length tokens)%nat /\
  (length tokens <= 2 * length (BasicTokenizer._merge tokens pair r))%nat /\
  (pair ∈ pairs tokens
   <-> (length (BasicTokenizer._merge tokens pair r) < length tokens)%nat) /\
  (pair ∉ pairs tokens -> BasicTokenizer._merge tokens pair r = tokens) /\
  RegexTokenizer._merge tokens pair r = BasicTokenizer._merge tokens pair r.
Proof.
  unfold BasicTokenizer._merge, RegexTokenizer._merge.
  rewrite _merge_greedy.
  pose proof (merge_greedy_length tokens pair r) as [Hle Hhalf].
  split; [assumption|]. split; [assumption|]. split; [split|split].
  - apply merge_greedy_present.
  - intros Hlt. destruct (decide (pair ∈ pairs tokens)) as [?|Hnin];
      [assumption|].
    rewrite (merge_greedy_absent _ _ _ Hnin) in Hlt. lia.
  - apply merge_greedy_absent.
  - reflexivity.
Qed.

(** X6. When the replacement token is neither token of the pair, the
    result of [_merge] holds no occurrence of the pair, so merging the same
    pair again changes nothing. *)
Theorem merge_idempotent (tokens : TokenList) (pair : TokenPair) (r : Z) :
  r <> pair.1 -> r <> pair.2 ->
  (pair ∉ pairs (BasicTokenizer._merge tokens pair r)) /\
  BasicTokenizer._merge (BasicTokenizer._merge tokens pair r) pair r
  = BasicTokenizer._merge tokens pair r.
Proof.
  intros H1 H2. unfold BasicTokenizer._merge. rewrite !_merge_greedy.
  pose proof (merge_greedy_removes tokens pair r H1 H2) as Hnin.
  split; [assumption|]. by apply merge_greedy_absent.
Qed.

Lemma merge_idempotent_witness :
  BasicTokenizer._merge (BasicTokenizer._merge aaab (97, 97) 256) (97, 97) 256
  = [256; 97; 98].
Proof.
  rewrite (proj2 (merge_idempotent aaab (97, 97) 256 ltac:(simpl; lia)
                    ltac:(simpl; lia))).
  reflexivity.
Defined.

(** X7. When the replacement token does not occur in [tokens], writing
    every replacement token of [_merge]'s result back as the pair gives
    [tokens] again. *)
Theorem unmerge_merge (tokens : TokenList) (pair : TokenPair) (r : Z) :
  r ∉ tokens ->
  unmerge pair r (BasicTokenizer._merge tokens pair r) = tokens.
Proof.
  intros Hr. unfold BasicTokenizer._merge. rewrite _merge_greedy.
  by apply unmerge_merge_greedy.
Qed.

Lemma unmerge_merge_witness :
  unmerge (97, 97) 256 (BasicTokenizer._merge aaab (97, 97) 256) = aaab.
Proof.
  apply unmerge_merge. unfold aaab.
  rewrite !not_elem_of_cons. repeat split; try lia. apply not_elem_of_nil.
Defined.

(** ** How [train] fails *)

Section TrainFails.
Import Kernel PyLoops.

Lemma encode_utf8_Raise text e :
  Py.encode_utf8 text = Raise e -> exists c, e = UnicodeEncodeError c.
Proof.
  induction text as [|c text IH]; simpl; [discriminate|].
  destruct (Py.encode_char c) as [b|e'] eqn:Hc; simpl.
  - destruct (Py.encode_utf8 text) as [bs|e'']; simpl; [discriminate|].
    intros [= <-]. by apply IH.
  - intros [= <-]. unfold Py.encode_char in Hc.
    destruct (_ || _); [injection Hc as <-; by eexists|].
    repeat match type of Hc with
           | (if ?b then _ else _) = _ => destruct b
           end; discriminate.
Qed.

Lemma chunks_of_Raise findall v text e :
  chunks_of findall v text = Raise e -> exists c, e = UnicodeEncodeError c.
Proof.
  destruct v; simpl.
  - destruct (Py.encode_utf8 text) as [bs|e'] eqn:He; simpl; [discriminate|].
    intros [= <-]. by apply (encode_utf8_Raise text).
  - generalize (findall text) as chunks.
    induction chunks as [|c chunks IH]; simpl; [discriminate|].
    destruct (Py.encode_utf8 c) as [bs|e'] eqn:He; simpl.
    + destruct (RegexTokenizer.encode_chunks chunks) as [cs|e'']; simpl;
        [discriminate|].
      intros [= <-]. by apply IH.
    + intros [= <-]. by apply (encode_utf8_Raise c).
Qed.

(** Under the invariant a round raises only when no pair is left. *)
Lemma bpe_body_Raise ovs cs0 i s e :
  inv ovs cs0 i s ->
  RegexTokenizer.bpe_body ovs i s = Raise e ->
  e = ValueError /\ chunk_pairs (RegexTokenizer.token_chunks s) = [].
Proof.
  intros Hinv. unfold RegexTokenizer.bpe_body.
  destruct (max _ _) as [top|e'] eqn:Hmax; simpl.
  - apply max_elem, keys_count_chunks in Hmax as [Hnil|(chunk & Hc & Hp)];
      [inversion Hnil|].
    destruct top as [a b]. destruct (pairs_elem _ _ _ Hp) as [Ha Hb].
    apply (inv_tokens _ _ _ _ Hinv _ _ Hc), (inv_dom _ _ _ _ Hinv) in Ha.
    apply (inv_tokens _ _ _ _ Hinv _ _ Hc), (inv_dom _ _ _ _ Hinv) in Hb.
    destruct Ha as [va Ha], Hb as [vb Hb].
    unfold getitem. simpl. rewrite Ha, Hb. discriminate.
  - intros [= <-]. rewrite count_chunks_fold, count_fold_keys in Hmax.
    destruct (first_seen _ _) as [|q l] eqn:Hfs; simpl in Hmax;
      [|discriminate].
    split; [by injection Hmax as <-|].
    apply elem_of_nil_inv. intros q Hq.
    assert (q ∈ first_seen (chunk_pairs (RegexTokenizer.token_chunks s)) [])
      as Hin by (apply first_seen_elem; auto).
    change (Dict.keys (@nil (TokenPair * Z))) with (@nil TokenPair) in Hfs.
    rewrite Hfs in Hin. inversion Hin.
Qed.

Lemma for_Raise ovs cs0 (k : nat) : forall i s e,
  256 <= ovs -> 0 <= i -> inv ovs cs0 i s ->
  for_ (seqZ i (Z.of_nat k)) (RegexTokenizer.bpe_body ovs) s = Raise e ->
  e = ValueError.
Proof.
  induction k as [|k IH]; intros i s e Hovs Hi Hinv; [discriminate|].
  rewrite seqZ_cons by lia. simpl.
  destruct (RegexTokenizer.bpe_body ovs i s) as [s1|e1] eqn:Hb; simpl.
  - replace (Z.pred (Z.of_nat (S k))) with (Z.of_nat k) by lia.
    apply IH; [assumption|lia|].
    replace (Z.succ i) with (i + 1) by lia. by apply (inv_step _ _ _ s).
  - intros [= <-]. by destruct (bpe_body_Raise _ _ _ _ _ Hinv Hb).
Qed.

Lemma bpe_loop_Raise cs0 ovs n e :
  byte_chunks cs0 -> 256 <= ovs ->
  RegexTokenizer.bpe_loop cs0 ovs n = Raise e -> e = ValueError.
Proof.
  intros Hb Hovs. unfold RegexTokenizer.bpe_loop, range.
  destruct (decide (n <= 0)) as [Hle|Hgt].
  - replace (seqZ 0 n) with (@nil Z)
      by (unfold seqZ; by rewrite Z2Nat.nonpos).
    discriminate.
  - rewrite <- (Z2Nat.id n) by lia.
    apply (for_Raise ovs cs0); [assumption|lia|by apply inv_init].
Qed.

End TrainFails.

(** X8. [train], of either class, raises nothing but [UnicodeEncodeError]
    (the text does not encode) and [ValueError] (a round finds no pair):
    the vocabulary lookups of the loop never raise [KeyError]. When it
    raises, the tokenizer keeps its state. *)
Theorem train_raises_only findall v self text V e self' :
  @train _ (tokenizer findall v) self text V = (Raise e, self') ->
  self' = self /\
  (e = ValueError \/ exists c, e = UnicodeEncodeError c).
Proof.
  rewrite train_unfold.
  destruct (chunks_of findall v text) as [cs|e0] eqn:Hcs; simpl.
  - unfold RegexTokenizer._byte_pair_encode.
    destruct (RegexTokenizer.bpe_loop cs V (V - 256)) as [s|e1] eqn:Hloop;
      simpl; [discriminate|].
    intros [= <- <-]. split; [reflexivity|]. left.
    destruct (decide (V - 256 <= 0)) as [Hle|Hgt].
    + unfold RegexTokenizer.bpe_loop, PyLoops.range in Hloop.
      replace (seqZ 0 (V - 256)) with (@nil Z) in Hloop
        by (unfold seqZ; by rewrite Z2Nat.nonpos).
      discriminate.
    + apply (bpe_loop_Raise cs V (V - 256));
        [by apply (chunks_of_bytes findall v text)|lia|assumption].
  - intros [= <- <-]. split; [reflexivity|]. right.
    by apply (chunks_of_Raise findall v text).
Qed.

Lemma train_raises_only_witness :
  (BasicTokenizer.train BasicTokenizer.__init__ [97; 0xD800] 300).2
    = BasicTokenizer.__init__ /\
  (BasicTokenizer.train BasicTokenizer.__init__ [97] 300).2
    = BasicTokenizer.__init__.
Proof.
  split.
  - apply (train_raises_only space_led Byte BasicTokenizer.__init__
             [97; 0xD800] 300 (UnicodeEncodeError 0xD800)).
    apply pair_eta_eq. vm_compute. reflexivity.
  - apply (train_raises_only space_led Byte BasicTokenizer.__init__
             [97] 300 ValueError).
    apply pair_eta_eq. vm_compute. reflexivity.
Defined.

(** ** Every round shortens the tokens *)

Section Shrinks.
Import Kernel PyLoops.

Lemma length_pairs l : length (pairs l) = (length l - 1)%nat.
Proof.
  unfold pairs. rewrite length_zip_with, length_drop. lia.
Qed.

Lemma length_chunk_pairs_cons c cs :
  length (chunk_pairs (c :: cs))
  = (length (pairs c) + length (chunk_pairs cs))%nat.
Proof. unfold chunk_pairs. simpl. by rewrite length_app. Qed.

Lemma merge_chunks_le top n cs :
  (length (chunk_pairs (map (fun c => _merge c top n) cs))
   <= length (chunk_pairs cs))%nat /\
  (length (concat (map (fun c => _merge c top n) cs))
   <= length (concat cs))%nat.
Proof.
  induction cs as [|c cs [IH1 IH2]]; [simpl; lia|].
  cbn [map]. rewrite !length_chunk_pairs_cons, !length_pairs.
  cbn [concat]. rewrite !length_app, _merge_greedy.
  pose proof (merge_greedy_length c top n). lia.
Qed.

Lemma merge_chunks_lt top n cs :
  top ∈ chunk_pairs cs ->
  (length (chunk_pairs (map (fun c => _merge c top n) cs))
   < length (chunk_pairs cs))%nat /\
  (length (concat (map (fun c => _merge c top n) cs))
   < length (concat cs))%nat.
Proof.
  induction cs as [|c cs IH]; [inversion 1|].
  unfold chunk_pairs at 1. cbn [map concat]. rewrite elem_of_app.
  fold (chunk_pairs cs). intros Hin.
  cbn [map]. rewrite !length_chunk_pairs_cons, !length_pairs.
  cbn [concat]. rewrite !length_app, _merge_greedy.
  pose proof (merge_greedy_length c top n) as [Hle _].
  pose proof (merge_chunks_le top n cs) as [Hc1 Hc2].
  destruct (decide (top ∈ pairs c)) as [Hc|Hc].
  - pose proof (merge_greedy_present c top n Hc).
    assert (1 <= length (pairs c))%nat as Hp.
    { destruct (pairs c); [inversion Hc|simpl; lia]. }
    rewrite length_pairs in Hp. lia.
  - destruct Hin as [?|Hin]; [contradiction|].
    destruct (IH Hin). lia.
Qed.

(** A round that does not raise leaves fewer pairs and fewer tokens. *)
Lemma bpe_body_shrinks ovs i s s' :
  RegexTokenizer.bpe_body ovs i s = Ok s' ->
  (length (chunk_pairs (RegexTokenizer.token_chunks s'))
   < length (chunk_pairs (RegexTokenizer.token_chunks s)))%nat /\
  (length (concat (RegexTokenizer.token_chunks s'))
   < length (concat (RegexTokenizer.token_chunks s)))%nat.
Proof.
  unfold RegexTokenizer.bpe_body.
  destruct (max _ _) as [top|e] eqn:Hmax; simpl; [|discriminate].
  destruct (getitem _ top.1); simpl; [|discriminate].
  destruct (getitem _ top.2); simpl; [|discriminate].
  intros [= <-]. simpl. apply merge_chunks_lt.
  apply max_elem in Hmax.
  rewrite count_chunks_fold, count_fold_keys in Hmax.
  apply first_seen_elem in Hmax as [Hnil|?]; [inversion Hnil|assumption].
Qed.

Lemma for_shrinks ovs items : forall s s',
  for_ items (RegexTokenizer.bpe_body ovs) s = Ok s' ->
  (length (chunk_pairs (RegexTokenizer.token_chunks s')) + length items
   <= length (chunk_pairs (RegexTokenizer.token_chunks s)))%nat /\
  (length (concat (RegexTokenizer.token_chunks s')) + length items
   <= length (concat (RegexTokenizer.token_chunks s)))%nat.
Proof.
  induction items as [|i items IH]; intros s s'; simpl.
  - intros [= <-]. lia.
  - destruct (RegexTokenizer.bpe_body ovs i s) as [s1|e] eqn:Hb; simpl;
      [|discriminate].
    intros Hfor. destruct (IH _ _ Hfor).
    destruct (bpe_body_shrinks _ _ _ _ Hb). lia.
Qed.

Lemma bpe_loop_shrinks cs ovs n s :
  RegexTokenizer.bpe_loop cs ovs n = Ok s ->
  (length (chunk_pairs (RegexTokenizer.token_chunks s)) + Z.to_nat n
   <= length (chunk_pairs cs))%nat /\
  (length (concat (RegexTokenizer.token_chunks s)) + Z.to_nat n
   <= length (concat cs))%nat.
Proof.
  unfold RegexTokenizer.bpe_loop, range. intros Hfor.
  apply for_shrinks in Hfor. rewrite length_seqZ in Hfor. exact Hfor.
Qed.

End Shrinks.

(** X9. [train] with [vocab_size > 256] raises [ValueError], and leaves
    the tokenizer as it was, whenever the chunks it starts from hold fewer
    adjacent pairs than the [vocab_size - 256] merges asked for: every
    round uses up one pair at least. For [BasicTokenizer] the chunks are
    the one list of the bytes of the text, with one pair less than
    bytes. *)
Theorem train_too_few_pairs findall v self text V cs :
  256 < V ->
  chunks_of findall v text = Ok cs ->
  Z.of_nat (length (chunk_pairs cs)) < V - 256 ->
  @train _ (tokenizer findall v) self text V = (Raise ValueError, self) /\
  (forall bs, length (chunk_pairs [bs]) = (length bs - 1)%nat).
Proof.
  intros HV Hcs Hfew. split.
  - rewrite train_unfold, Hcs. cbn [bind].
    unfold RegexTokenizer._byte_pair_encode.
    destruct (RegexTokenizer.bpe_loop cs V (V - 256)) as [s|e] eqn:Hloop;
      cbn [bind].
    + apply bpe_loop_shrinks in Hloop as [Hp _]. lia.
    + apply bpe_loop_Raise in Hloop as ->;
        [reflexivity|by apply (chunks_of_bytes findall v text)|lia].
  - intros bs. unfold chunk_pairs. simpl.
    by rewrite app_nil_r, length_pairs.
Qed.

Lemma train_too_few_pairs_witness :
  BasicTokenizer.train BasicTokenizer.__init__ aaab 260
  = (Raise ValueError, BasicTokenizer.__init__).
Proof.
  apply (train_too_few_pairs space_led Byte BasicTokenizer.__init__ aaab 260
           [[97; 97; 97; 98]]); [lia|reflexivity|simpl; lia].
Defined.

(** ** The tables after training *)

Section TablesMore.
Import Kernel PyLoops.

Lemma for_invariant ovs cs0 (P : Z -> RegexTokenizer.locals -> Prop) :
  256 <= ovs ->
  (forall i s s', 0 <= i -> inv ovs cs0 i s -> P i s ->
     RegexTokenizer.bpe_body ovs i s = Ok s' -> P (i + 1) s') ->
  forall (k : nat) i s s', 0 <= i -> inv ovs cs0 i s -> P i s ->
    for_ (seqZ i (Z.of_nat k)) (RegexTokenizer.bpe_body ovs) s = Ok s' ->
    P (i + Z.of_nat k) s'.
Proof.
  intros Hovs Hstep. induction k as [|k IH]; intros i s s' Hi Hinv HP.
  - simpl. intros [= <-]. by rewrite Z.add_0_r.
  - rewrite seqZ_cons by lia. simpl.
    destruct (RegexTokenizer.bpe_body ovs i s) as [s1|e] eqn:Hb; simpl;
      [|discriminate].
    replace (Z.pred (Z.of_nat (S k))) with (Z.of_nat k) by lia.
    intros Hfor.
    replace (i + Z.of_nat (S k)) with (Z.succ i + Z.of_nat k) by lia.
    apply (IH _ s1); [lia| | |assumption];
      replace (Z.succ i) with (i + 1) by lia.
    + by apply (inv_step _ _ _ s).
    + by apply (Hstep i s).
Qed.

(** A property of the locals that the first state has and every round
    keeps holds when the loop ends. *)
Lemma bpe_loop_invariant cs0 ovs n (P : Z -> RegexTokenizer.locals -> Prop) s :
  byte_chunks cs0 -> (n <= 0 \/ 256 <= ovs) ->
  P 0 (RegexTokenizer.Locals cs0 [] base_vocab) ->
  (forall i s s', 0 <= i -> inv ovs cs0 i s -> P i s ->
     RegexTokenizer.bpe_body ovs i s = Ok s' -> P (i + 1) s') ->
  RegexTokenizer.bpe_loop cs0 ovs n = Ok s ->
  P (Z.max 0 n) s.
Proof.
  intros Hb Hn H0 Hstep. unfold RegexTokenizer.bpe_loop, range.
  destruct (decide (n <= 0)) as [Hle|Hgt].
  - rewrite Z.max_l by lia.
    replace (seqZ 0 n) with (@nil Z)
      by (unfold seqZ; by rewrite Z2Nat.nonpos).
    simpl. intros [= <-]. apply H0.
  - rewrite Z.max_r by lia. rewrite <- (Z2Nat.id n) at 1 by lia.
    intros Hfor. rewrite <- (Z2Nat.id n) by lia.
    apply (for_invariant ovs cs0 P) in Hfor;
      [assumption|lia|assumption|lia|by apply inv_init|apply H0].
Qed.

Lemma table_wf_step ovs cs0 i s s' :
  0 <= i -> inv ovs cs0 i s -> table_wf ovs (RegexTokenizer.merges s) ->
  RegexTokenizer.bpe_body ovs i s = Ok s' ->
  table_wf ovs (RegexTokenizer.merges s').
Proof.
  intros Hi Hinv [Hnd Hcomp] Hbody.
  destruct (bpe_body_Ok _ _ _ _ _ Hi Hinv Hbody)
    as ([a b] & va & vb & chunk & Hc & Hp & Hfresh & Ha & Hb & ->).
  simpl. split.
  - rewrite fmap_app. apply NoDup_app. split; [assumption|].
    split; [|apply NoDup_singleton].
    intros x Hx Hx'. apply list_elem_of_singleton in Hx'. simpl in Hx'.
    congruence.
  - intros a' b' n Hin. apply elem_of_app in Hin as [Hin|Hin]; [auto|].
    apply list_elem_of_singleton in Hin. injection Hin as -> -> ->.
    replace (ovs + i - ovs) with i by lia.
    destruct (pairs_elem _ _ _ Hp) as [Hina Hinb].
    split; by apply (inv_tokens _ _ _ _ Hinv chunk).
Qed.

Lemma bpe_loop_table_wf cs0 ovs n s :
  byte_chunks cs0 -> (n <= 0 \/ 256 <= ovs) ->
  RegexTokenizer.bpe_loop cs0 ovs n = Ok s ->
  table_wf ovs (RegexTokenizer.merges s).
Proof.
  intros Hb Hn Hloop.
  apply (bpe_loop_invariant cs0 ovs n
           (fun _ s => table_wf ovs (RegexTokenizer.merges s)) s Hb Hn);
    [|apply table_wf_step|assumption].
  split; [apply NoDup_nil_2|]. intros a b m Hin. inversion Hin.
Qed.

Lemma vocab_lengths_step ovs cs0 i s s' :
  256 <= ovs ->
  0 <= i -> inv ovs cs0 i s -> vocab_lengths (RegexTokenizer.vocab s) ->
  RegexTokenizer.bpe_body ovs i s = Ok s' ->
  vocab_lengths (RegexTokenizer.vocab s').
Proof.
  intros Hovs Hi Hinv Hlen Hbody.
  destruct (bpe_body_Ok _ _ _ _ _ Hi Hinv Hbody)
    as ([a b] & va & vb & chunk & Hc & Hp & Hfresh & Ha & Hb & ->).
  simpl in *. intros k bs.
  destruct (decide (k = ovs + i)) as [->|Hne].
  - rewrite lookup_insert_eq. intros [= <-]. rewrite length_app.
    destruct (Hlen _ _ Ha), (Hlen _ _ Hb). lia.
  - rewrite lookup_insert_ne by congruence. apply Hlen.
Qed.

End TablesMore.

(** X10. After a successful [train], of either class, no pair and no id
    occurs twice in the merge table, and the two tokens of every entry are
    byte values or ids given to earlier entries: an id is only ever built
    from tokens that existed before it. *)
Theorem merge_table_wellformed findall v self text V self' :
  @train _ (tokenizer findall v) self text V = (Ok tt, self') ->
  exists vocab merges,
    self' = trained v vocab merges /\
    NoDup merges.*1 /\ NoDup merges.*2 /\
    forall a b n, ((a, b), n) ∈ merges ->
      (0 <= a < 256 \/ V <= a < n) /\ (0 <= b < 256 \/ V <= b < n).
Proof.
  intros Htrain.
  destruct (train_Ok findall v self text V self' Htrain)
    as (cs & s & Hcs & Hloop & -> & Hinv).
  exists (RegexTokenizer.vocab s), (RegexTokenizer.merges s).
  split; [reflexivity|].
  destruct (bpe_loop_table_wf cs V (V - 256) s) as [Hnd Hcomp];
    [by apply (chunks_of_bytes findall v text)|lia|assumption|].
  split; [assumption|]. split.
  - rewrite (inv_ids _ _ _ _ Hinv). apply NoDup_seqZ.
  - intros a b n Hin. destruct (Hcomp a b n Hin) as [Ha Hb].
    unfold known in Ha, Hb. lia.
Qed.

Lemma merge_table_wellformed_witness :
  exists vocab merges,
    (BasicTokenizer.train BasicTokenizer.__init__ aaab 259).2
      = trained Byte vocab merges /\
    NoDup merges.*1 /\ NoDup merges.*2 /\
    forall a b n, ((a, b), n) ∈ merges ->
      (0 <= a < 256 \/ 259 <= a < n) /\ (0 <= b < 256 \/ 259 <= b < n).
Proof.
  apply (merge_table_wellformed space_led Byte BasicTokenizer.__init__ aaab).
  apply pair_eta_eq. vm_compute. reflexivity.
Defined.

Lemma bpe_loop_vocab_lengths cs0 ovs n s :
  byte_chunks cs0 -> (n <= 0 \/ 256 <= ovs) ->
  RegexTokenizer.bpe_loop cs0 ovs n = Ok s ->
  vocab_lengths (RegexTokenizer.vocab s).
Proof.
  intros Hb Hn Hloop.
  destruct (decide (n <= 0)) as [Hle|Hgt].
  - unfold RegexTokenizer.bpe_loop, PyLoops.range in Hloop.
    replace (seqZ 0 n) with (@nil Z) in Hloop
      by (unfold seqZ; by rewrite Z2Nat.nonpos).
    injection Hloop as <-. intros k bs. cbn [RegexTokenizer.vocab].
    rewrite base_vocab_lookup.
    destruct (decide (0 <= k < 256)); [|discriminate].
    intros [= <-]. simpl. lia.
  - apply (bpe_loop_invariant cs0 ovs n
             (fun _ s => vocab_lengths (RegexTokenizer.vocab s)) s Hb Hn);
      [| |assumption].
    + intros k bs. cbn [RegexTokenizer.vocab]. rewrite base_vocab_lookup.
      destruct (decide (0 <= k < 256)); [|discriminate].
      intros [= <-]. simpl. lia.
    + intros i s0 s1 Hi Hinv HP Hbody.
      apply (vocab_lengths_step ovs cs0 i s0 s1); [lia|assumption..].
Qed.

(** X11. After a successful [train], of either class, the vocabulary
    holds byte strings only; the entry of an id below 256 is that one
    byte, the entry of any other id has two bytes at least, and the entry
    of the id of a merge is the entry of the first token of its pair
    followed by the entry of the second. *)
Theorem vocabulary_entries findall v self text V self' :
  @train _ (tokenizer findall v) self text V = (Ok tt, self') ->
  exists vocab merges,
    self' = trained v vocab merges /\
    (forall k bs, vocab !! k = Some bs ->
       Forall Py.byte bs /\
       (k < 256 -> bs = [k]) /\
       (256 <= k -> (2 <= length bs)%nat)) /\
    (forall a b n, ((a, b), n) ∈ merges ->
       exists va vb, vocab !! a = Some va /\ vocab !! b = Some vb
                     /\ vocab !! n = Some (va ++ vb)).
Proof.
  intros Htrain.
  destruct (train_Ok findall v self text V self' Htrain)
    as (cs & s & Hcs & Hloop & -> & Hinv).
  exists (RegexTokenizer.vocab s), (RegexTokenizer.merges s).
  split; [reflexivity|]. split; [|apply (inv_expand _ _ _ _ Hinv)].
  intros k bs Hk.
  split; [by apply (inv_vals _ _ _ _ Hinv k)|]. split.
  - intros Hlt.
    assert (0 <= k < 256) as Hbyte.
    { destruct (proj1 (inv_dom _ _ _ _ Hinv k)) as [?|?]; [by eexists| |];
        lia. }
    rewrite (inv_bytes _ _ _ _ Hinv k Hbyte) in Hk. by injection Hk as <-.
  - apply (bpe_loop_vocab_lengths cs V (V - 256) s);
      [by apply (chunks_of_bytes findall v text)|lia|assumption|assumption].
Qed.

Lemma vocabulary_entries_witness :
  exists vocab merges,
    (BasicTokenizer.train BasicTokenizer.__init__ aaab 259).2
      = trained Byte vocab merges /\
    (forall k bs, vocab !! k = Some bs ->
       Forall Py.byte bs /\
       (k < 256 -> bs = [k]) /\
       (256 <= k -> (2 <= length bs)%nat)) /\
    (forall a b n, ((a, b), n) ∈ merges ->
       exists va vb, vocab !! a = Some va /\ vocab !! b = Some vb
                     /\ vocab !! n = Some (va ++ vb)).
Proof.
  apply (vocabulary_entries space_led Byte BasicTokenizer.__init__ aaab 259).
  apply pair_eta_eq. vm_compute. reflexivity.
Defined.

(** ** What [encode] returns *)

Section EncodeMore.
Import Kernel PyLoops.

Lemma replay_cons pair n merges tokens :
  replay ((pair, n) :: merges) tokens
  = replay merges (merge_greedy tokens pair n).
Proof. unfold replay. simpl. by rewrite _merge_greedy. Qed.

Lemma replay_elem merges : forall tokens t,
  t ∈ replay merges tokens -> t ∈ tokens \/ t ∈ merges.*2.
Proof.
  induction merges as [|[p n] merges IH]; intros tokens t; [auto|].
  rewrite replay_cons. intros Ht.
  destruct (IH _ _ Ht) as [Hin|Hin].
  - apply merge_greedy_elem in Hin as [->|?]; [|auto].
    right. apply list_elem_of_here.
  - right. by apply list_elem_of_further.
Qed.

Lemma replay_length merges : forall tokens,
  (length (replay merges tokens) <= length tokens)%nat.
Proof.
  induction merges as [|[p n] merges IH]; intros tokens; [simpl; lia|].
  rewrite replay_cons. specialize (IH (merge_greedy tokens p n)).
  pose proof (merge_greedy_length tokens p n). lia.
Qed.

Lemma replay_fixed merges tokens :
  (forall p, p ∈ merges.*1 -> p ∉ pairs tokens) ->
  replay merges tokens = tokens.
Proof.
  induction merges as [|[p n] merges IH]; intros Hnone; [reflexivity|].
  rewrite replay_cons, merge_greedy_absent.
  - apply IH. intros q Hq. apply Hnone. by apply list_elem_of_further.
  - apply Hnone. apply list_elem_of_here.
Qed.

(** Replaying a table whose ids are [ovs], [ovs + 1], ... and whose pairs
    are made of smaller tokens leaves none of its pairs in the result. *)
Lemma replay_fully_merged ovs tokens : forall merges,
  merges.*2 = seqZ ovs (Z.of_nat (length merges)) ->
  (forall a b n, ((a, b), n) ∈ merges -> a < n /\ b < n) ->
  Forall (fun t => t < ovs) tokens ->
  Forall (fun t => t < ovs + Z.of_nat (length merges)) (replay merges tokens)
  /\ forall p, p ∈ merges.*1 -> p ∉ pairs (replay merges tokens).
Proof.
  induction merges as [|[[a b] n] merges IH] using rev_ind;
    intros Hids Hlt Htok.
  - simpl. split; [|intros p Hp; inversion Hp].
    eapply Forall_impl; [exact Htok|]. simpl. intros; lia.
  - rewrite fmap_app, length_app in Hids. simpl in Hids.
    replace (Z.of_nat (length merges + 1)) with (Z.of_nat (S (length merges)))
      in Hids by lia.
    rewrite seqZ_S in Hids. apply app_inj_tail in Hids as [Hids Hn].
    simpl in Hn. subst n.
    destruct (IH Hids) as [IHtok IHpairs]; [|assumption|].
    { intros a' b' n' Hin. apply Hlt, elem_of_app. auto. }
    destruct (Hlt a b (ovs + Z.of_nat (length merges))) as [Ha Hb].
    { apply elem_of_app. right. apply list_elem_of_here. }
    rewrite replay_snoc, _merge_greedy, length_app. simpl. split.
    + apply Forall_forall. intros t Ht.
      apply merge_greedy_elem in Ht as [->|Ht]; [lia|].
      rewrite Forall_forall in IHtok. specialize (IHtok t Ht). lia.
    + intros [c d] Hp Hin. rewrite fmap_app, elem_of_app in Hp.
      apply merge_greedy_pairs in Hin as [->|[->|[Hold Hne]]].
      * destruct Hp as [Hp|Hp].
        -- apply list_elem_of_fmap in Hp as ([[c' d'] n'] & [= <- <-] & Hin).
           assert (n' ∈ merges.*2) as Hn'
             by (apply list_elem_of_fmap; by exists ((ovs + Z.of_nat (length merges), d), n')).
           rewrite Hids, elem_of_seqZ in Hn'.
           destruct (Hlt _ _ _ (proj2 (elem_of_app _ _ _) (or_introl Hin))).
           lia.
        -- apply list_elem_of_singleton in Hp. injection Hp as Hp _. lia.
      * destruct Hp as [Hp|Hp].
        -- apply list_elem_of_fmap in Hp as ([[c' d'] n'] & [= <- <-] & Hin).
           assert (n' ∈ merges.*2) as Hn'
             by (apply list_elem_of_fmap; by exists ((c, ovs + Z.of_nat (length merges)), n')).
           rewrite Hids, elem_of_seqZ in Hn'.
           destruct (Hlt _ _ _ (proj2 (elem_of_app _ _ _) (or_introl Hin))).
           lia.
        -- apply list_elem_of_singleton in Hp. injection Hp as _ Hp. lia.
      * destruct Hp as [Hp|Hp]; [exact (IHpairs _ Hp Hold)|].
        apply list_elem_of_singleton in Hp. simpl in Hp. congruence.
Qed.

(** The table of a successful loop, as [replay_fully_merged] needs it. *)
Lemma bpe_loop_ordered cs0 ovs n s :
  byte_chunks cs0 -> 256 <= ovs ->
  RegexTokenizer.bpe_loop cs0 ovs n = Ok s ->
  (RegexTokenizer.merges s).*2
    = seqZ ovs (Z.of_nat (length (RegexTokenizer.merges s))) /\
  (forall a b m, ((a, b), m) ∈ RegexTokenizer.merges s -> a < m /\ b < m).
Proof.
  intros Hb Hovs Hloop.
  pose proof (bpe_loop_inv cs0 ovs n s Hb (or_intror Hovs) Hloop) as Hinv.
  destruct (bpe_loop_table_wf cs0 ovs n s Hb (or_intror Hovs) Hloop)
    as [_ Hcomp].
  pose proof (inv_ids _ _ _ _ Hinv) as Hids. split.
  - rewrite <- (length_fmap snd), Hids, length_seqZ.
    rewrite Z2Nat.id by lia. reflexivity.
  - intros a b m Hin.
    assert (m ∈ (RegexTokenizer.merges s).*2) as Hm
      by (apply list_elem_of_fmap; by exists ((a, b), m)).
    rewrite Hids, elem_of_seqZ in Hm.
    destruct (Hcomp a b m Hin) as [Ha Hb']. unfold known in Ha, Hb'. lia.
Qed.

Lemma elem_of_concat {A} (x : A) (ls : list (list A)) :
  x ∈ concat ls <-> exists l, x ∈ l /\ l ∈ ls.
Proof.
  induction ls as [|l ls IH]; simpl.
  - rewrite elem_of_nil. split; [tauto|]. intros (? & _ & H). inversion H.
  - rewrite elem_of_app, IH. split.
    + intros [?|(l' & ? & ?)]; [exists l|exists l'];
        (split; [assumption|]);
        [apply list_elem_of_here|by apply list_elem_of_further].
    + intros (l' & Hx & Hl). apply elem_of_cons in Hl as [->|?]; eauto.
Qed.

Lemma encode_chunks_utf8 chunks : forall cs,
  RegexTokenizer.encode_chunks chunks = Ok cs ->
  Py.encode_utf8 (concat chunks) = Ok (concat cs).
Proof.
  induction chunks as [|c chunks IH]; intros cs; simpl.
  - by intros [= <-].
  - destruct (Py.encode_utf8 c) as [bs|e] eqn:Hbs; simpl; [|discriminate].
    destruct (RegexTokenizer.encode_chunks chunks) as [cs'|e] eqn:Hcs; simpl;
      [|discriminate].
    intros [= <-]. simpl. apply encode_utf8_app; [assumption|by apply IH].
Qed.

End EncodeMore.

(** X12. After a successful [train], of either class, the tokens that
    [encode] returns for a chunk hold no adjacent pair that is a key of the
    merge table: every merge that could apply has been applied, and
    replaying the table over them once more changes nothing. *)
Theorem encode_fully_merged findall v self text V self' T cs :
  @train _ (tokenizer findall v) self text V = (Ok tt, self') ->
  chunks_of findall v T = Ok cs ->
  exists vocab merges,
    self' = trained v vocab merges /\
    @encode _ (tokenizer findall v) self' T
      = Ok (concat (map (Kernel.replay merges) cs)) /\
    forall chunk, chunk ∈ cs ->
      (forall p, p ∈ merges.*1 -> p ∉ pairs (Kernel.replay merges chunk)) /\
      Kernel.replay merges (Kernel.replay merges chunk)
      = Kernel.replay merges chunk.
Proof.
  intros Htrain HT.
  destruct (train_Ok findall v self text V self' Htrain)
    as (cs0 & s & Hcs & Hloop & -> & Hinv).
  exists (RegexTokenizer.vocab s), (RegexTokenizer.merges s).
  split; [reflexivity|]. split; [by rewrite encode_unfold, HT|].
  intros chunk Hchunk.
  assert (Hnone : forall p, p ∈ (RegexTokenizer.merges s).*1 ->
            p ∉ pairs (Kernel.replay (RegexTokenizer.merges s) chunk)).
  { destruct (decide (V - 256 <= 0)) as [Hle|Hgt].
    - rewrite Z.max_l in Hinv by lia.
      pose proof (inv_ids _ _ _ _ Hinv) as Hids.
      destruct (RegexTokenizer.merges s); [|discriminate].
      intros p Hp. inversion Hp.
    - destruct (bpe_loop_ordered cs0 V (V - 256) s) as [Hids Hlt];
        [by apply (chunks_of_bytes findall v text)|lia|assumption|].
      apply (replay_fully_merged V chunk _ Hids Hlt).
      apply Forall_forall. intros t Ht.
      pose proof (chunks_of_bytes findall v T cs HT chunk t Hchunk Ht). lia. }
  split; [assumption|]. by apply replay_fixed.
Qed.

Lemma encode_fully_merged_witness :
  exists vocab merges,
    (BasicTokenizer.train BasicTokenizer.__init__ aaab 258).2
      = trained Byte vocab merges /\
    BasicTokenizer.encode
      (BasicTokenizer.train BasicTokenizer.__init__ aaab 258).2 ab_cd
      = Ok (concat (map (Kernel.replay merges) [[97; 98; 32; 99; 100]])) /\
    forall chunk, chunk ∈ [[97; 98; 32; 99; 100]] ->
      (forall p, p ∈ merges.*1 -> p ∉ pairs (Kernel.replay merges chunk)) /\
      Kernel.replay merges (Kernel.replay merges chunk)
      = Kernel.replay merges chunk.
Proof.
  apply (encode_fully_merged space_led Byte BasicTokenizer.__init__ aaab 258).
  - apply pair_eta_eq. vm_compute. reflexivity.
  - reflexivity.
Defined.

(** X13. After a successful [train] with [vocab_size >= 256], [encode]
    returns no more tokens than the chunks of the text have bytes, and each
    token is a byte value or an id from [vocab_size] up to
    [2 * vocab_size - 257]: no id from 256 to [vocab_size - 1] is ever
    returned. *)
Theorem encode_output_bounds findall v self text V self' T cs :
  256 <= V ->
  @train _ (tokenizer findall v) self text V = (Ok tt, self') ->
  chunks_of findall v T = Ok cs ->
  exists tokens,
    @encode _ (tokenizer findall v) self' T = Ok tokens /\
    (length tokens <= length (concat cs))%nat /\
    forall t, t ∈ tokens -> 0 <= t < 256 \/ V <= t < V + (V - 256).
Proof.
  intros HV Htrain HT.
  destruct (train_Ok findall v self text V self' Htrain)
    as (cs0 & s & Hcs & Hloop & -> & Hinv).
  rewrite Z.max_r in Hinv by lia.
  exists (concat (map (Kernel.replay (RegexTokenizer.merges s)) cs)).
  split; [by rewrite encode_unfold, HT|].
  pose proof (chunks_of_bytes findall v T cs HT) as Hbytes.
  clear HT. split.
  - induction cs as [|c cs IH]; [simpl; lia|].
    simpl. rewrite !length_app.
    pose proof (replay_length (RegexTokenizer.merges s) c).
    assert (byte_chunks cs) as Hcs'
      by (intros ch t Hch; apply Hbytes; by apply list_elem_of_further).
    specialize (IH Hcs'). lia.
  - intros t Ht. apply elem_of_concat in Ht as (toks & Ht & Htoks).
    apply list_elem_of_fmap in Htoks as (c & -> & Hc).
    apply replay_elem in Ht as [Ht|Ht].
    + left. by apply (Hbytes c).
    + right. rewrite (inv_ids _ _ _ _ Hinv), elem_of_seqZ in Ht. lia.
Qed.

Lemma encode_output_bounds_witness :
  exists tokens,
    BasicTokenizer.encode
      (BasicTokenizer.train BasicTokenizer.__init__ aaab 258).2 ab_cd
      = Ok tokens /\
    (length tokens <= length (concat [[97; 98; 32; 99; 100]]))%nat /\
    forall t, t ∈ tokens -> 0 <= t < 256 \/ 258 <= t < 258 + (258 - 256).
Proof.
  apply (encode_output_bounds space_led Byte BasicTokenizer.__init__ aaab 258
           (BasicTokenizer.train BasicTokenizer.__init__ aaab 258).2 ab_cd
           [[97; 98; 32; 99; 100]]).
  - lia.
  - apply pair_eta_eq. vm_compute. reflexivity.
  - reflexivity.
Defined.

(** X14. After a successful [train], [encode] on the training text itself
    returns at least [vocab_size - 256] tokens fewer than the chunks of the
    text have bytes: every round of training removed a token. *)
Theorem training_compresses findall v self text V self' cs :
  @train _ (tokenizer findall v) self text V = (Ok tt, self') ->
  chunks_of findall v text = Ok cs ->
  exists tokens,
    @encode _ (tokenizer findall v) self' text = Ok tokens /\
    (length tokens + Z.to_nat (V - 256) <= length (concat cs))%nat.
Proof.
  intros Htrain Hcs.
  destruct (train_Ok findall v self text V self' Htrain)
    as (cs0 & s & Hcs0 & Hloop & -> & Hinv).
  rewrite Hcs in Hcs0. injection Hcs0 as <-.
  exists (concat (map (Kernel.replay (RegexTokenizer.merges s)) cs)).
  split; [by rewrite encode_unfold, Hcs|].
  rewrite <- (inv_replay _ _ _ _ Hinv).
  by destruct (bpe_loop_shrinks _ _ _ _ Hloop).
Qed.

Lemma training_compresses_witness :
  exists tokens,
    BasicTokenizer.encode
      (BasicTokenizer.train BasicTokenizer.__init__ aaab 259).2 aaab
      = Ok tokens /\
    (length tokens + Z.to_nat (259 - 256)
     <= length (concat [[97; 97; 97; 98]]))%nat.
Proof.
  apply (training_compresses space_led Byte BasicTokenizer.__init__ aaab 259
           (BasicTokenizer.train BasicTokenizer.__init__ aaab 259).2
           [[97; 97; 97; 98]]).
  - apply pair_eta_eq. vm_compute. reflexivity.
  - reflexivity.
Defined.

(** X15. After a successful [train] of [RegexTokenizer], [decode] of
    [encode] of a text is the concatenation of the chunks that the pattern
    finds in the text, whenever these chunks encode to UTF-8: what the
    pattern would not match is not in the result. *)
Theorem regex_roundtrip_chunks findall self text V self' T cs :
  RegexTokenizer.train findall self text V = (Ok tt, self') ->
  RegexTokenizer.encode_chunks (findall T) = Ok cs ->
  exists tokens,
    RegexTokenizer.encode findall self' T = Ok tokens /\
    RegexTokenizer.decode self' tokens = Ok (concat (findall T)).
Proof.
  intros Htrain HT.
  destruct (train_Ok findall Chunked self text V self' Htrain)
    as (cs0 & s & Hcs & Hloop & -> & Hinv).
  exists (concat (map (Kernel.replay (RegexTokenizer.merges s)) cs)).
  pose proof (encode_unfold findall Chunked (RegexTokenizer.vocab s)
                (RegexTokenizer.merges s) T) as He.
  simpl in He. rewrite HT in He. split; [exact He|].
  pose proof (decode_unfold findall Chunked (RegexTokenizer.vocab s)
                (RegexTokenizer.merges s)
                (concat (map (Kernel.replay (RegexTokenizer.merges s)) cs)))
    as Hd.
  simpl in Hd. cbn [trained]. rewrite Hd.
  destruct (coherent_replay_chunks _ _ cs (inv_coherent _ _ _ _ Hinv))
    as (bss & Hl & Hc); [by apply (encode_chunks_bytes (findall T))|].
  rewrite Hl. simpl. rewrite Hc.
  by rewrite (decode_encode_utf8 _ _ (encode_chunks_utf8 _ _ HT)).
Qed.

Lemma regex_roundtrip_chunks_witness :
  exists tokens,
    RegexTokenizer.encode (fun text => take 2 (space_led text))
      (RegexTokenizer.train (fun text => take 2 (space_led text))
         RegexTokenizer.__init__ ab_cd 258).2 [97; 32; 98; 32; 99]
      = Ok tokens /\
    RegexTokenizer.decode
      (RegexTokenizer.train (fun text => take 2 (space_led text))
         RegexTokenizer.__init__ ab_cd 258).2 tokens
      = Ok [97; 32; 98].
Proof.
  apply (regex_roundtrip_chunks (fun text => take 2 (space_led text))
           RegexTokenizer.__init__ ab_cd 258 _ [97; 32; 98; 32; 99]
           [[97]; [32; 98]]).
  - apply pair_eta_eq. vm_compute. reflexivity.
  - reflexivity.
Defined.

(** ** minbpe/tokenizer.py: [_merge] *)

Section TokenizerPyMerge.
Import Kernel TokenizerPy.

Lemma can_replace_in p tokens acc i :
  (i + 1 < length tokens)%nat ->
  can_replace p (MergeVars tokens acc i)
  = match tuple_item p i with
    | None => IndexError
    | Some a =>
        if bool_decide (tokens !! i = Some a) then
          match tuple_item p (i + 1) with
          | None => IndexError
          | Some b => Returns (bool_decide (tokens !! (i + 1)%nat = Some b))
          end
        else Returns false
    end.
Proof.
  intros Hi. unfold can_replace. cbn [m_i m_tokens].
  destruct (Z.ltb_spec (Z.of_nat i) (Z.of_nat (length tokens) - 1));
    [reflexivity|lia].
Qed.

Lemma can_replace_out p tokens acc i :
  (length tokens <= i + 1)%nat ->
  can_replace p (MergeVars tokens acc i) = Returns false.
Proof.
  intros Hi. unfold can_replace. cbn [m_i m_tokens].
  destruct (Z.ltb_spec (Z.of_nat i) (Z.of_nat (length tokens) - 1));
    [lia|reflexivity].
Qed.

Lemma merge_while_S fuel p r tokens acc i :
  (i < length tokens)%nat ->
  merge_while (S fuel) p r (MergeVars tokens acc i)
  = match merge_body p r (MergeVars tokens acc i) with
    | IndexError => IndexError
    | Returns s' => merge_while fuel p r s'
    end.
Proof.
  intros Hi. cbn [merge_while m_i m_tokens].
  destruct (Nat.ltb_spec i (length tokens)); [reflexivity|lia].
Qed.

Lemma merge_while_done fuel p r tokens acc i :
  (length tokens <= i)%nat ->
  merge_while fuel p r (MergeVars tokens acc i)
  = Returns (MergeVars tokens acc i).
Proof.
  intros Hi. destruct fuel; [reflexivity|]. cbn [merge_while m_i m_tokens].
  destruct (Nat.ltb_spec i (length tokens)); [lia|reflexivity].
Qed.

(** From index 2 on, inside the list, the pair is indexed out of range. *)
Lemma merge_while_from_2 fuel p r tokens acc :
  (4 <= length tokens)%nat ->
  merge_while (S fuel) p r (MergeVars tokens acc 2) = IndexError.
Proof.
  intros Hlen. rewrite merge_while_S by lia.
  unfold merge_body. rewrite can_replace_in by lia. reflexivity.
Qed.

Lemma _merge_long tokens p r :
  (4 <= length tokens)%nat -> _merge tokens p r = IndexError.
Proof.
  intros Hlen. unfold _merge.
  destruct (length tokens) as [|[|[|fuel]]] eqn:Hl; try lia.
  rewrite merge_while_S by lia.
  unfold merge_body at 1. rewrite can_replace_in by lia. cbn [tuple_item Nat.add].
  destruct (bool_decide (tokens !! 0%nat = Some p.1));
    [destruct (bool_decide (tokens !! 1%nat = Some p.2))|].
  - cbn [m_tokens m_new_tokens m_i Nat.add].
    rewrite merge_while_from_2 by lia. reflexivity.
  - cbn [m_tokens m_new_tokens m_i Nat.add].
    rewrite merge_while_S by lia.
    unfold merge_body at 1. rewrite can_replace_in by lia. cbn [tuple_item Nat.add].
    destruct (bool_decide (tokens !! 1%nat = Some p.2)); [reflexivity|].
    cbn [m_tokens m_new_tokens m_i Nat.add].
    rewrite merge_while_from_2 by lia. reflexivity.
  - cbn [m_tokens m_new_tokens m_i Nat.add].
    rewrite merge_while_S by lia.
    unfold merge_body at 1. rewrite can_replace_in by lia. cbn [tuple_item Nat.add].
    destruct (bool_decide (tokens !! 1%nat = Some p.2)); [reflexivity|].
    cbn [m_tokens m_new_tokens m_i Nat.add].
    rewrite merge_while_from_2 by lia. reflexivity.
Qed.

Lemma _merge_three t0 t1 t2 p r :
  _merge [t0; t1; t2] p r
  = if bool_decide (t0 = p.1) && bool_decide (t1 = p.2) then Returns [r; t2]
    else if bool_decide (t1 = p.2) then IndexError
    else Returns [t0; t1; t2].
Proof.
  unfold _merge. cbn [length].
  rewrite merge_while_S by (simpl; lia).
  unfold merge_body at 1. rewrite can_replace_in by (simpl; lia).
  cbn [tuple_item lookup list_lookup Nat.add].
  destruct (bool_decide_reflect (t0 = p.1)) as [H0|H0].
  - rewrite bool_decide_eq_true_2 by congruence.
    destruct (bool_decide_reflect (t1 = p.2)) as [H1|H1].
    + rewrite bool_decide_eq_true_2 by congruence.
      cbn [andb m_tokens m_new_tokens m_i Nat.add app].
      rewrite merge_while_S by (simpl; lia).
      unfold merge_body. rewrite can_replace_out by (simpl; lia).
      cbn [m_tokens m_new_tokens m_i Nat.add app lookup list_lookup
           option_list].
      rewrite merge_while_done by (simpl; lia). reflexivity.
    + rewrite bool_decide_eq_false_2 by congruence.
      cbn [andb m_tokens m_new_tokens m_i Nat.add app option_list].
      rewrite merge_while_S by (simpl; lia).
      unfold merge_body at 1. rewrite can_replace_in by (simpl; lia).
      cbn [tuple_item lookup list_lookup Nat.add].
      rewrite bool_decide_eq_false_2 by congruence.
      cbn [m_tokens m_new_tokens m_i Nat.add app option_list lookup
           list_lookup].
      rewrite merge_while_S by (simpl; lia).
      unfold merge_body. rewrite can_replace_out by (simpl; lia).
      cbn [m_tokens m_new_tokens m_i Nat.add app lookup list_lookup
           option_list].
      rewrite merge_while_done by (simpl; lia). reflexivity.
  - rewrite bool_decide_eq_false_2 by congruence.
    cbn [andb m_tokens m_new_tokens m_i Nat.add app option_list].
    rewrite merge_while_S by (simpl; lia).
    unfold merge_body at 1. rewrite can_replace_in by (simpl; lia).
    cbn [tuple_item lookup list_lookup Nat.add].
    destruct (bool_decide_reflect (t1 = p.2)) as [H1|H1].
    + rewrite bool_decide_eq_true_2 by congruence. reflexivity.
    + rewrite bool_decide_eq_false_2 by congruence.
      cbn [m_tokens m_new_tokens m_i Nat.add app option_list lookup
           list_lookup].
      rewrite merge_while_S by (simpl; lia).
      unfold merge_body. rewrite can_replace_out by (simpl; lia).
      cbn [m_tokens m_new_tokens m_i Nat.add app lookup list_lookup
           option_list].
      rewrite merge_while_done by (simpl; lia). reflexivity.
Qed.

Lemma _merge_short tokens p r :
  (length tokens <= 2)%nat ->
  _merge tokens p r = Returns (Kernel._merge tokens p r).
Proof.
  intros Hlen. rewrite _merge_greedy.
  destruct tokens as [|t0 [|t1 [|t2 rest]]]; [| | |simpl in Hlen; lia].
  - reflexivity.
  - unfold _merge. cbn [length].
    rewrite merge_while_S by (simpl; lia).
    unfold merge_body. rewrite can_replace_out by (simpl; lia).
    cbn [m_tokens m_new_tokens m_i Nat.add app lookup list_lookup
         option_list].
    rewrite merge_while_done by (simpl; lia). reflexivity.
  - unfold _merge. cbn [length].
    rewrite merge_while_S by (simpl; lia).
    unfold merge_body at 1. rewrite can_replace_in by (simpl; lia).
    cbn [tuple_item lookup list_lookup Nat.add]. rewrite merge_greedy_cons2.
    destruct (bool_decide_reflect (t0 = p.1)) as [H0|H0];
      [destruct (bool_decide_reflect (t1 = p.2)) as [H1|H1]|].
    + rewrite !bool_decide_eq_true_2 by congruence.
      cbn [andb m_tokens m_new_tokens m_i Nat.add app].
      rewrite merge_while_done by (simpl; lia). reflexivity.
    + rewrite bool_decide_eq_true_2 by congruence.
      rewrite bool_decide_eq_false_2 by congruence.
      cbn [andb m_tokens m_new_tokens m_i Nat.add app option_list].
      rewrite merge_while_S by (simpl; lia).
      unfold merge_body. rewrite can_replace_out by (simpl; lia).
      cbn [m_tokens m_new_tokens m_i Nat.add app lookup list_lookup
           option_list].
      rewrite merge_while_done by (simpl; lia). reflexivity.
    + rewrite bool_decide_eq_false_2 by congruence.
      cbn [andb m_tokens m_new_tokens m_i Nat.add app option_list].
      rewrite merge_while_S by (simpl; lia).
      unfold merge_body. rewrite can_replace_out by (simpl; lia).
      cbn [m_tokens m_new_tokens m_i Nat.add app lookup list_lookup
           option_list].
      rewrite merge_while_done by (simpl; lia). reflexivity.
Qed.

End TokenizerPyMerge.

(** X16. [_merge] of minbpe/tokenizer.py, which indexes the pair with the
    loop variable, raises [IndexError] on every list of four tokens or
    more; on a list of two tokens at most it returns what [_merge] of
    basic.py returns; on three tokens it merges a pair at the front, raises
    [IndexError] when only the second token matches the second of the
    pair, and returns the list otherwise. *)
Theorem tokenizer_py_merge (tokens : TokenList) (pair : TokenPair) (r : Z) :
  ((4 <= length tokens)%nat ->
   TokenizerPy._merge tokens pair r = TokenizerPy.IndexError) /\
  ((length tokens <= 2)%nat ->
   TokenizerPy._merge tokens pair r
   = TokenizerPy.Returns (BasicTokenizer._merge tokens pair r)) /\
  (forall t0 t1 t2, tokens = [t0; t1; t2] ->
   TokenizerPy._merge tokens pair r
   = if bool_decide (t0 = pair.1) && bool_decide (t1 = pair.2)
     then TokenizerPy.Returns [r; t2]
     else if bool_decide (t1 = pair.2) then TokenizerPy.IndexError
     else TokenizerPy.Returns tokens).
Proof.
  split; [apply _merge_long|]. split; [apply _merge_short|].
  intros t0 t1 t2 ->. apply _merge_three.
Qed.

Lemma tokenizer_py_merge_witness :
  TokenizerPy._merge aaab (97, 97) 256 = TokenizerPy.IndexError /\
  TokenizerPy._merge [97; 97] (97, 97) 256 = TokenizerPy.Returns [256].
Proof.
  split.
  - apply (proj1 (tokenizer_py_merge aaab (97, 97) 256)). simpl. lia.
  - rewrite (proj1 (proj2 (tokenizer_py_merge [97; 97] (97, 97) 256)))
      by (simpl; lia).
    reflexivity.
Defined.

(** ** The two classes side by side *)




(** X18. With [vocab_size <= 256], [train] on a text that encodes makes
    no merge, and [encode] then returns the UTF-8 bytes of the chunks of
    its text unchanged (for [BasicTokenizer]: the bytes of the text). *)
Theorem train_base_encode_is_bytes findall v self text V cs0 T cs :
  V <= 256 ->
  chunks_of findall v text = Ok cs0 ->
  chunks_of findall v T = Ok cs ->
  @train _ (tokenizer findall v) self text V
    = (Ok tt, trained v Kernel.base_vocab []) /\
  @encode _ (tokenizer findall v) (trained v Kernel.base_vocab []) T
    = Ok (concat cs).
Proof.
  intros HV Hcs0 Hcs. split.
  - rewrite train_unfold, Hcs0. cbn [bind].
    unfold RegexTokenizer._byte_pair_encode, RegexTokenizer.bpe_loop,
      PyLoops.range.
    replace (seqZ 0 (V - 256)) with (@nil Z)
      by (unfold seqZ; by rewrite Z2Nat.nonpos by lia).
    reflexivity.
  - rewrite encode_unfold, Hcs. cbn [bind]. do 2 f_equal.
    apply map_id.
Qed.

Lemma train_base_encode_is_bytes_witness :
  BasicTokenizer.train BasicTokenizer.__init__ [] 256
    = (Ok tt, BasicTokenizer.Self (Some Kernel.base_vocab) (Some [])) /\
  BasicTokenizer.encode
    (BasicTokenizer.Self (Some Kernel.base_vocab) (Some [])) ab_cd
    = Ok [97; 98; 32; 99; 100].
Proof.
  apply (train_base_encode_is_bytes space_led Byte BasicTokenizer.__init__
           [] 256 [[]] ab_cd [[97; 98; 32; 99; 100]]);
    [lia|reflexivity|reflexivity].
Defined.
